(** * Clarke-Wright savings routing (src/cvrp.ts): a shallow embedding

    The TypeScript module builds vehicle routes with the Clarke-Wright
    savings heuristic ([calculateSavings], [clarkWright]) and extends it to
    several depots by nearest-depot clustering ([getNearestDepot],
    [formDepotClusters], [routeWithinClusters], [multiDepotVehicleRouter]).

    Modelling choices.
    - A JavaScript [number] is a [Z]: demands, capacities and distances are
      exact integers (kilograms, and an integral unit of length).
    - [distance] is floating-point trigonometry (the haversine formula); the
      routing code only adds, subtracts and compares its results, so the
      development takes the distance function as a section variable.
    - In IEEE doubles the haversine formula does not always give a number:
      for two (nearly) antipodal points [halfChordSquared] can come out just
      above 1, and then [Math.sqrt(1 - halfChordSquared)], and with it the
      distance, is NaN.  What [getNearestDepot] and [formDepotClusters] do
      with such a distance is fixed by their code, and they are embedded
      over a distance that may be NaN (module [WithNaN]).  In
      [clarkWright] a NaN distance makes a saving NaN and the comparator of
      the sort return NaN, and the order in which the savings are then
      walked is the engine's choice, not the source's: the embedding of
      [clarkWright] covers the inputs on which every distance is a number,
      and nothing is stated here about the ranked order as such.
    - [IDType] is [string | number].  The code only ever compares
      identifiers and uses them as [Map] keys, so the development is
      parametric in the identifier type; on identifiers of one primitive
      type the operators [==] and [===] and the key equality of [Map] are
      all plain equality.
    - [Route] objects are mutable and shared between the [routes] array and
      the [nodeToRoute] map.  The embedding keeps them in a heap (a list
      indexed by allocation order); [routes] and [nodeToRoute] hold
      references into it, so aliasing is preserved. *)

From Stdlib Require Import ZArith Lia.
From stdpp Require Import base option list sorting gmap strings.

(** ** Data model *)

Inductive NodeType := ORDER | VENDOR.

#[global] Instance NodeType_eq_dec : EqDecision NodeType.
Proof. solve_decision. Defined.

Record Coordinate := { lat : Z; long : Z }.

(** [type Vehicle = Coordinate & { id: number; capacity?: number }] *)
Record Vehicle := {
  vehicle_coordinate :> Coordinate;
  vehicle_id : Z;
  capacity : option Z
}.

(** [type NodeV = Coordinate & { id; type; demand; vendorId? }] *)
Record NodeV {IDType : Type} := {
  node_coordinate :> Coordinate;
  id : IDType;
  type : NodeType;
  demand : Z;
  vendorId : option IDType
}.
Arguments NodeV : clear implicits.

Record Saving {IDType : Type} := { i : IDType; j : IDType; saving : Z }.
Arguments Saving : clear implicits.

Record Route {IDType : Type} := {
  nodes : list IDType;
  capacityUsed : Z;
  vehicleCapacity : Z
}.
Arguments Route : clear implicits.

Record VendorOrderCluster {IDType : Type} := {
  vendor : NodeV IDType;
  orders : list (NodeV IDType)
}.
Arguments VendorOrderCluster : clear implicits.

Definition VEHICLE_INITIAL_CAPACITY : Z := 10.

(** A reference to a [Route] object: its index in the heap. *)
Definition RouteRef := nat.

(** The mutable variables of one [clarkWright] call. *)
Record State {IDType : Type} `{Countable IDType} := {
  heap : list (Route IDType);
  routes : list RouteRef;
  nodeToRoute : gmap IDType RouteRef
}.
Arguments State IDType {_ _}.

(** [Array.prototype.indexOf]: the first index holding [x], or [-1]. *)
Fixpoint indexOf {A} `{EqDecision A} (x : A) (l : list A) : Z :=
  match l with
  | [] => -1
  | y :: l' =>
      if decide (y = x) then 0%Z
      else let k := indexOf x l' in if (k <? 0)%Z then (-1)%Z else (k + 1)%Z
  end.

(** [Array.prototype.splice(start, 1)]: a negative [start] counts from the
    end of the array, and a start past either end is clamped. *)
Definition splice1 {A} (start : Z) (l : list A) : list A :=
  let len := Z.of_nat (length l) in
  let from := if (start <? 0)%Z then Z.max (len + start) 0 else Z.min start len in
  delete (Z.to_nat from) l.

(** ** Clusters

    [getNearestDepot] and [formDepotClusters], over a distance that may be
    NaN. *)

(** A JavaScript number as [getNearestDepot] meets it: a distance that is a
    number, the initial [Infinity], or NaN. *)
Inductive Number := Finite (value : Z) | Infinity | NaN.

(** [a < b]: false as soon as one side is NaN. *)
Definition lessThan (a b : Number) : bool :=
  match a, b with
  | Finite x, Finite y => (x <? y)%Z
  | Finite _, Infinity => true
  | _, _ => false
  end.

(** [order.vendorId === vendor.id] *)
Definition isAssociatedWithVendor {IDType : Type} `{EqDecision IDType}
    (order vendorNode : NodeV IDType) : bool :=
  bool_decide (vendorId order = Some (id vendorNode)).

Module WithNaN.
Section Clusters.
Context {IDType : Type} `{Countable IDType}.

(** The haversine distance of the source, kept abstract. *)
Variable distance : Coordinate -> Coordinate -> Number.

(** The loop of [getNearestDepot]: [if (_distance < nearestDepotDistance)]
    skips a depot whose distance is NaN. *)
Fixpoint getNearestDepot_loop (depotList : list Vehicle) (location : Coordinate)
    (nearestDepotId : option Z) (nearestDepotDistance : Number) : option Z :=
  match depotList with
  | [] => nearestDepotId
  | depot :: rest =>
      let _distance := distance depot location in
      if lessThan _distance nearestDepotDistance
      then getNearestDepot_loop rest location (Some (vehicle_id depot)) _distance
      else getNearestDepot_loop rest location nearestDepotId nearestDepotDistance
  end.

Definition getNearestDepot (depotList : list Vehicle) (location : Coordinate)
    : option Z :=
  getNearestDepot_loop depotList location None Infinity.

(** One iteration of [for (let vendor of vendorList)]. *)
Definition addVendor (depotList : list Vehicle) (orderList : list (NodeV IDType))
    (depotClusters : gmap Z (list (VendorOrderCluster IDType)))
    (vendorNode : NodeV IDType) : gmap Z (list (VendorOrderCluster IDType)) :=
  let associatedOrders :=
    List.filter (fun order => isAssociatedWithVendor order vendorNode) orderList in
  match getNearestDepot depotList vendorNode with
  | Some nearestDepotId =>
      let present := default [] (depotClusters !! nearestDepotId) in
      <[nearestDepotId :=
          present ++ [{| vendor := vendorNode; orders := associatedOrders |}]]>
        depotClusters
  | None => depotClusters
  end.

Definition formDepotClusters (depotList : list Vehicle)
    (vendorList orderList : list (NodeV IDType))
    : gmap Z (list (VendorOrderCluster IDType)) :=
  foldl (addVendor depotList orderList) ∅ vendorList.

(** The depot at position [k] is at the distance [d], a number, from
    [location]; no depot of the list is at a smaller number, and every
    earlier depot at a number is strictly farther. *)
Definition isNearest (depotList : list Vehicle) (location : Coordinate)
    (k : nat) (depot : Vehicle) (d : Z) : Prop :=
  depotList !! k = Some depot /\
  distance depot location = Finite d /\
  (forall (depot' : Vehicle) d', depot' ∈ depotList ->
      distance depot' location = Finite d' -> (d <= d')%Z) /\
  (forall k' (depot' : Vehicle) d', k' < k -> depotList !! k' = Some depot' ->
      distance depot' location = Finite d' -> (d < d')%Z).

End Clusters.
End WithNaN.

(** ** clarkWright and the router *)

Section CVRP.
Context {IDType : Type} `{Countable IDType}.

(** The haversine distance of the source, kept abstract, where it is a
    number. *)
Variable distance : Coordinate -> Coordinate -> Z.

Implicit Types (depot : Vehicle) (nodeList : list (NodeV IDType)).
Implicit Types (st : State IDType) (s : Saving IDType) (x y : IDType).
Implicit Types (node node_i node_j : NodeV IDType).

(** [depot.capacity ?? VEHICLE_INITIAL_CAPACITY] *)
Definition capacityOf depot : Z :=
  default VEHICLE_INITIAL_CAPACITY (capacity depot).

(** [node.type === NodeType.ORDER ? node.demand : -node.demand] *)
Definition demandEffect (node : NodeV IDType) : Z :=
  match type node with ORDER => demand node | VENDOR => (- demand node)%Z end.

(** *** calculateSavings *)

Definition savingOf depot (node_i node_j : NodeV IDType) : Saving IDType :=
  {| i := id node_i;
     j := id node_j;
     saving := (distance depot node_i + distance depot node_j
                - distance node_i node_j)%Z |}.

(** The inner loop, [for (j = i + 1; j < nodeList.length; j++)]: [rest] is
    the part of the list after position [i]. *)
Fixpoint calculateSavings_row depot (node_i : NodeV IDType)
    (rest : list (NodeV IDType)) : list (Saving IDType) :=
  match rest with
  | [] => []
  | node_j :: rest' =>
      (if bool_decide (type node_i = ORDER) && bool_decide (type node_j = ORDER)
       then [savingOf depot node_i node_j] else [])
      ++ calculateSavings_row depot node_i rest'
  end.

(** The outer loop, [for (i = 0; i < nodeList.length; i++)]. *)
Fixpoint calculateSavings depot nodeList : list (Saving IDType) :=
  match nodeList with
  | [] => []
  | node_i :: rest =>
      calculateSavings_row depot node_i rest ++ calculateSavings depot rest
  end.

(** *** The ranking of the savings

    [savingsList.sort((a, b) => b.saving - a.saving)]: descending by
    value, and stable (ECMAScript 2019), so records of equal value keep
    their production order.  On savings that are numbers a stable sort has
    one possible result; it is computed here by insertion.  (With a NaN
    saving the comparator is not an order and the result is not determined
    by the source; savings are numbers here.) *)
Fixpoint insertSaving s (sorted : list (Saving IDType)) : list (Saving IDType) :=
  match sorted with
  | [] => [s]
  | s' :: rest =>
      if (saving s <? saving s')%Z then s' :: insertSaving s rest
      else s :: sorted
  end.

Definition sortSavings (savingsList : list (Saving IDType)) : list (Saving IDType) :=
  foldr insertSaving [] savingsList.

(** *** The body of the savings loop *)

(** [nodeList.find((node) => node.id === x)] *)
Definition findNode nodeList x : option (NodeV IDType) :=
  List.find (fun node => bool_decide (id node = x)) nodeList.

(** The route object gets a new value; every reference to it sees it. *)
Definition setRoute st (r : RouteRef) (route : Route IDType) : State IDType :=
  {| heap := <[r := route]> (heap st);
     routes := routes st;
     nodeToRoute := nodeToRoute st |}.

(** Step 3a: neither node has a route. *)
Definition pairUp depot st s (node_i node_j : NodeV IDType) : State IDType :=
  let newCapacityUsed :=
    (capacityOf depot - demandEffect node_i - demandEffect node_j)%Z in
  if (0 <=? newCapacityUsed)%Z then
    let newRoute := {| nodes := [i s; j s];
                       capacityUsed := newCapacityUsed;
                       vehicleCapacity := capacityOf depot |} in
    let r := length (heap st) in
    {| heap := heap st ++ [newRoute];
       routes := routes st ++ [r];
       nodeToRoute := <[j s := r]> (<[i s := r]> (nodeToRoute st)) |}
  else st.

(** Step 3b: [anchor] is in the route [r], [joining] has none.  The code is
    the same for both sides, with [i] and [j] swapped. *)
Definition attach st (r : RouteRef) (route : Route IDType)
    (anchor joining : IDType) (node_joining : NodeV IDType) : State IDType :=
  let newCapacityUsed := (capacityUsed route - demandEffect node_joining)%Z in
  if (0 <=? newCapacityUsed)%Z then
    let nodes' :=
      if bool_decide (head (nodes route) = Some anchor)
      then joining :: nodes route          (* unshift *)
      else nodes route ++ [joining] in     (* push *)
    let st' := setRoute st r {| nodes := nodes';
                                capacityUsed := newCapacityUsed;
                                vehicleCapacity := vehicleCapacity route |} in
    {| heap := heap st';
       routes := routes st';
       nodeToRoute := <[joining := r]> (nodeToRoute st') |}
  else st.

(** Step 3c: the two nodes are in two different route objects. *)
Definition concatenate st s (r_i r_j : RouteRef) (route_i route_j : Route IDType)
    (node_i node_j : NodeV IDType) : State IDType :=
  let newCapacityForRouteI := (capacityUsed route_i - demandEffect node_j)%Z in
  let newCapacityForRouteJ := (capacityUsed route_j - demandEffect node_i)%Z in
  if (0 <=? newCapacityForRouteI)%Z && (0 <=? newCapacityForRouteJ)%Z then
    if bool_decide (last (nodes route_i) = Some (i s))
       && bool_decide (head (nodes route_j) = Some (j s))
    then
      {| heap := <[r_i := {| nodes := nodes route_i ++ nodes route_j;
                             capacityUsed := newCapacityForRouteI;
                             vehicleCapacity := vehicleCapacity route_i |}]>
                 (heap st);
         routes := splice1 (indexOf r_j (routes st)) (routes st);
         nodeToRoute := <[j s := r_i]> (nodeToRoute st) |}
    else if bool_decide (head (nodes route_i) = Some (i s))
            && bool_decide (last (nodes route_j) = Some (j s))
    then
      {| heap := <[r_i := {| nodes := nodes route_j ++ nodes route_i;
                             capacityUsed := newCapacityForRouteJ;
                             vehicleCapacity := vehicleCapacity route_i |}]>
                 (heap st);
         routes := splice1 (indexOf r_j (routes st)) (routes st);
         nodeToRoute := <[i s := r_i]> (nodeToRoute st) |}
    else st
  else st.

(** One iteration of [for (let saving of savingsList)].  A reference found
    in [nodeToRoute] always points into the heap ([refsValid] below, kept by
    every step); the [None] branches of the heap lookups are there for
    totality only. *)
Definition processSaving depot nodeList st s : State IDType :=
  let route_i := nodeToRoute st !! i s in
  let route_j := nodeToRoute st !! j s in
  match findNode nodeList (i s), findNode nodeList (j s) with
  | Some node_i, Some node_j =>
      match route_i, route_j with
      | None, None => pairUp depot st s node_i node_j
      | Some r_i, None =>
          match heap st !! r_i with
          | Some route => attach st r_i route (i s) (j s) node_j
          | None => st
          end
      | None, Some r_j =>
          match heap st !! r_j with
          | Some route => attach st r_j route (j s) (i s) node_i
          | None => st
          end
      | Some r_i, Some r_j =>
          if decide (r_i = r_j) then st
          else
            match heap st !! r_i, heap st !! r_j with
            | Some route_i, Some route_j =>
                concatenate st s r_i r_j route_i route_j node_i node_j
            | _, _ => st
            end
      end
  | _, _ => st   (* continue *)
  end.

(** *** The fallback loop *)

Definition fits depot (node : NodeV IDType) : bool :=
  match type node with
  | ORDER => (demand node <=? capacityOf depot)%Z
  | VENDOR => (Z.abs (demand node) <=? capacityOf depot)%Z
  end.

Definition fallbackRoute depot (node : NodeV IDType) : Route IDType :=
  {| nodes := [id node];
     capacityUsed :=
       match type node with
       | ORDER => (capacityOf depot - demand node)%Z
       | VENDOR => (capacityOf depot + demand node)%Z
       end;
     vehicleCapacity := capacityOf depot |}.

(** One iteration of [for (let node of nodeList)]. *)
Definition fallback depot st (node : NodeV IDType) : State IDType :=
  match nodeToRoute st !! id node with
  | Some _ => st
  | None =>
      if fits depot node then
        let r := length (heap st) in
        {| heap := heap st ++ [fallbackRoute depot node];
           routes := routes st ++ [r];
           nodeToRoute := <[id node := r]> (nodeToRoute st) |}
      else st
  end.

(** *** clarkWright *)

Definition initialState : State IDType :=
  {| heap := []; routes := []; nodeToRoute := ∅ |}.

Definition savingsLoop depot nodeList (savingsList : list (Saving IDType)) st
    : State IDType :=
  foldl (processSaving depot nodeList) st savingsList.

Definition rankedSavings depot nodeList : list (Saving IDType) :=
  sortSavings (calculateSavings depot nodeList).

Definition afterSavings depot nodeList : State IDType :=
  savingsLoop depot nodeList (rankedSavings depot nodeList) initialState.

Definition fallbackLoop depot (nodes_ : list (NodeV IDType)) st : State IDType :=
  foldl (fallback depot) st nodes_.

Definition finalState depot nodeList : State IDType :=
  fallbackLoop depot nodeList (afterSavings depot nodeList).

(** [return routes]: the array of route objects, read through the heap. *)
Definition returned st : list (Route IDType) :=
  omap (fun r => heap st !! r) (routes st).

Definition clarkWright depot nodeList : list (Route IDType) :=
  returned (finalState depot nodeList).

(** *** Clusters, on distances that are numbers *)

(** The distance as a number that is never NaN. *)
Definition finiteDistance (a b : Coordinate) : Number := Finite (distance a b).

Definition getNearestDepot (depotList : list Vehicle) (location : Coordinate)
    : option Z :=
  WithNaN.getNearestDepot finiteDistance depotList location.

Definition addVendor (depotList : list Vehicle) (orderList : list (NodeV IDType))
    (depotClusters : gmap Z (list (VendorOrderCluster IDType)))
    (vendorNode : NodeV IDType) : gmap Z (list (VendorOrderCluster IDType)) :=
  WithNaN.addVendor finiteDistance depotList orderList depotClusters vendorNode.

Definition formDepotClusters (depotList : list Vehicle)
    (vendorList orderList : list (NodeV IDType))
    : gmap Z (list (VendorOrderCluster IDType)) :=
  WithNaN.formDepotClusters finiteDistance depotList vendorList orderList.

Definition routeCluster depot (cluster : VendorOrderCluster IDType)
    : list (Route IDType) :=
  let nodesForCluster := vendor cluster :: orders cluster in
  clarkWright depot nodesForCluster.

Definition routeDepot (depotClusters : gmap Z (list (VendorOrderCluster IDType)))
    (depotRoutes : gmap Z (list (Route IDType))) depot
    : gmap Z (list (Route IDType)) :=
  match depotClusters !! vehicle_id depot with
  | Some clusters =>
      let allRoutesForDepot := concat (map (routeCluster depot) clusters) in
      <[vehicle_id depot := allRoutesForDepot]> depotRoutes
  | None => depotRoutes
  end.

Definition routeWithinClusters (depotList : list Vehicle)
    (depotClusters : gmap Z (list (VendorOrderCluster IDType)))
    : gmap Z (list (Route IDType)) :=
  foldl (routeDepot depotClusters) ∅ depotList.

Definition multiDepotVehicleRouter (vehicleList : list Vehicle)
    (vendorList orderList : list (NodeV IDType)) : gmap Z (list (Route IDType)) :=
  routeWithinClusters vehicleList
    (formDepotClusters vehicleList vendorList orderList).

(** *** Vocabulary of the properties *)

(** No route object has a negative [capacityUsed]. *)
Definition capacityOk st : Prop :=
  Forall (fun route => (0 <= capacityUsed route)%Z) (heap st).

(** A saving is rejected when the capacity the code computes for its case
    is negative. *)
Definition rejected depot st s node_i node_j : Prop :=
  match nodeToRoute st !! i s, nodeToRoute st !! j s with
  | None, None =>
      (capacityOf depot - demandEffect node_i - demandEffect node_j < 0)%Z
  | Some r_i, None =>
      exists route, heap st !! r_i = Some route /\
        (capacityUsed route - demandEffect node_j < 0)%Z
  | None, Some r_j =>
      exists route, heap st !! r_j = Some route /\
        (capacityUsed route - demandEffect node_i < 0)%Z
  | Some r_i, Some r_j =>
      exists route_i route_j,
        heap st !! r_i = Some route_i /\ heap st !! r_j = Some route_j /\
        ((capacityUsed route_i - demandEffect node_j < 0)%Z \/
         (capacityUsed route_j - demandEffect node_i < 0)%Z)
  end.

(** Every identifier listed in a route object is a key of [nodeToRoute]. *)
Definition registered st : Prop :=
  Forall (fun route => Forall (fun x => is_Some (nodeToRoute st !! x)) (nodes route))
         (heap st).

(** Every reference held by [routes] or [nodeToRoute] points into the heap. *)
Definition refsValid st : Prop :=
  Forall (fun r => r < length (heap st)) (routes st) /\
  map_Forall (fun _ r => r < length (heap st)) (nodeToRoute st).

(** Every key of [nodeToRoute] satisfies [P]. *)
Definition keysIn (P : IDType -> Prop) st : Prop :=
  map_Forall (fun x _ => P x) (nodeToRoute st).

(** The load of a route: the sum of the demand effects of its nodes. *)
Definition routeLoad nodeList (route : Route IDType) : Z :=
  foldr (fun x load => (from_option demandEffect 0 (findNode nodeList x) + load)%Z)
        0%Z (nodes route).

(** [x] is the identifier of an ORDER node of the list. *)
Definition isOrderId nodeList x : Prop :=
  exists node, node ∈ nodeList /\ id node = x /\ type node = ORDER.

(** The depot at position [k] is nearest to [location], and the first of
    the list at that distance. *)
Definition isNearest (depotList : list Vehicle) (location : Coordinate)
    (k : nat) depot : Prop :=
  depotList !! k = Some depot /\
  (forall depot', depot' ∈ depotList ->
                  (distance depot location <= distance depot' location)%Z) /\
  (forall k' depot', k' < k -> depotList !! k' = Some depot' ->
                     (distance depot location < distance depot' location)%Z).

(** The cluster [formDepotClusters] builds for a vendor. *)
Definition clusterOf (orderList : list (NodeV IDType)) (vendorNode : NodeV IDType)
    : VendorOrderCluster IDType :=
  {| vendor := vendorNode;
     orders := List.filter
                 (fun order => bool_decide (vendorId order = Some (id vendorNode)))
                 orderList |}.

(** *** Vocabulary of the further properties *)

(** The number of ORDER nodes of the list. *)
Definition countOrders nodeList : nat :=
  length (filter (fun node => type node = ORDER) nodeList).

(** Every route object lists a node and carries the depot's capacity. *)
Definition shapeOk depot st : Prop :=
  Forall (fun route => nodes route <> [] /\ vehicleCapacity route = capacityOf depot)
         (heap st).

(** No route object has more free capacity than the depot gives. *)
Definition belowCapacity depot st : Prop :=
  Forall (fun route => (capacityUsed route <= capacityOf depot)%Z) (heap st).

(** The state in which the savings loop meets its [k]-th saving. *)
Definition stateBefore depot nodeList (k : nat) : State IDType :=
  savingsLoop depot nodeList (take k (rankedSavings depot nodeList)) initialState.

(** No saving of the run finds its two nodes in two different route objects:
    the branch of step 3c is never entered. *)
Definition concatenationFree depot nodeList : Prop :=
  forall k s (r_i r_j : RouteRef),
    rankedSavings depot nodeList !! k = Some s ->
    nodeToRoute (stateBefore depot nodeList k) !! i s = Some r_i ->
    nodeToRoute (stateBefore depot nodeList k) !! j s = Some r_j ->
    r_i = r_j.

(** The books are right: capacityUsed is the capacity minus the load. *)
Definition accounted depot nodeList st : Prop :=
  Forall (fun route =>
            capacityUsed route = (capacityOf depot - routeLoad nodeList route)%Z)
         (heap st).

(** [nodeToRoute] and the route objects agree: a node listed in a route
    object is registered under that object, a registered node is listed in
    its route object, which is in the array, no route lists a node twice and
    the array holds no object twice. *)
Definition indexed st : Prop :=
  (forall (r : RouteRef) route x,
      heap st !! r = Some route -> x ∈ nodes route -> nodeToRoute st !! x = Some r) /\
  (forall x (r : RouteRef),
      nodeToRoute st !! x = Some r ->
      r ∈ routes st /\ exists route, heap st !! r = Some route /\ x ∈ nodes route) /\
  Forall (fun route => NoDup (nodes route)) (heap st) /\
  NoDup (routes st).

(** Every route object lists at least two nodes. *)
Definition pairsOrMore st : Prop :=
  Forall (fun route => 2 <= length (nodes route)) (heap st).

End CVRP.

(** Positions [(a, b)] in production order: by [a], then by [b]. *)
Definition pairBefore (p q : nat * nat) : Prop :=
  p.1 < q.1 \/ (p.1 = q.1 /\ p.2 < q.2).

(** ** Concrete instances used for evaluation *)

(** Degrees of arc between two points.  For two points of one meridian this
    is the great-circle distance in units of one degree of arc, which is what
    the haversine formula computes up to the constant factor R * pi / 180. *)
Definition arcDistance (a b : Coordinate) : Z :=
  (Z.abs (lat b - lat a) + Z.abs (long b - long a))%Z.

Definition orderAt (name : string) (latitude : Z) (dem : Z) : NodeV string :=
  {| node_coordinate := {| lat := latitude; long := 0 |};
     id := name; type := ORDER; demand := dem; vendorId := None |}.

Definition vendorAt (name : string) (latitude : Z) (dem : Z) : NodeV string :=
  {| node_coordinate := {| lat := latitude; long := 0 |};
     id := name; type := VENDOR; demand := dem; vendorId := None |}.

Definition orderOf (name owner : string) (latitude : Z) (dem : Z) : NodeV string :=
  {| node_coordinate := {| lat := latitude; long := 0 |};
     id := name; type := ORDER; demand := dem; vendorId := Some owner |}.

(** A depot at the origin, with no capacity of its own (so 10). *)
Definition depot0 : Vehicle :=
  {| vehicle_coordinate := {| lat := 0; long := 0 |};
     vehicle_id := 1; capacity := None |}.

Definition depotFar : Vehicle :=
  {| vehicle_coordinate := {| lat := 10; long := 0 |};
     vehicle_id := 2; capacity := None |}.

(** The state of a run on [depot0] after [k] iterations of the savings loop. *)
Definition stateAfter (nodeList : list (NodeV string)) (k : nat) : State string :=
  savingsLoop depot0 nodeList
    (take k (rankedSavings arcDistance depot0 nodeList)) initialState.

(** Two orders two degrees north of the depot and two one degree south, of
    demand 3 each. *)
Definition overloadedNodes : list (NodeV string) :=
  [orderAt "A" 2 3; orderAt "B" 2 3; orderAt "C" (-1) 3; orderAt "D" (-1) 3].

(** Three pairs of orders on the meridian of the depot. *)
Definition duplicatingNodes : list (NodeV string) :=
  [orderAt "A" 6 2; orderAt "B" 6 4; orderAt "C" (-4) 2; orderAt "D" (-4) 4;
   orderAt "E" (-1) 5; orderAt "F" (-1) 5].

(** Five orders of demand 1 at the depot itself: every saving is 0, so the
    ranking is the production order. *)
Definition colocatedNodes : list (NodeV string) :=
  [orderAt "A" 0 1; orderAt "B" 0 1; orderAt "C" 0 1; orderAt "D" 0 1;
   orderAt "E" 0 1].

Definition guardedNodes : list (NodeV string) :=
  [orderAt "A" 2 1; orderAt "B" 2 5; orderAt "C" (-1) 1; orderAt "D" (-1) 5].

(** As [guardedNodes], with C a return: an order of demand -3, which frees
    capacity. *)
Definition returnNodes : list (NodeV string) :=
  [orderAt "A" 2 2; orderAt "B" 2 2; orderAt "C" (-1) (-3); orderAt "D" (-1) 8].

(** B and C carry no load. *)
Definition mergingNodes : list (NodeV string) :=
  [orderAt "A" 2 1; orderAt "B" 2 0; orderAt "C" (-1) 0; orderAt "D" (-1) 1].

Definition mixedNodes : list (NodeV string) :=
  [vendorAt "V" 0 (-2); orderAt "A" 0 3; orderAt "B" 0 11].

(** A vendor with a single order. *)
Definition smallCluster : list (NodeV string) :=
  [vendorAt "V" 0 (-2); orderAt "A" 1 3].

(** Orders of which no two fit one vehicle of capacity 10. *)
Definition heavyNodes : list (NodeV string) :=
  [orderAt "A" 1 6; orderAt "B" 1 7; orderAt "C" 2 11].

Definition twoDepots : list Vehicle := [depot0; depotFar].

(** One order of the vendor V, one of an unknown vendor, one of no vendor. *)
Definition sampleOrders : list (NodeV string) :=
  [orderOf "O1" "V" 2 2; orderOf "O2" "W" 2 2; orderAt "O3" 2 2].

(** Degrees of arc, except between the point (8, 0) and its antipode
    (-8, 180): there the haversine of the source is NaN in doubles
    ([halfChordSquared] is 1.0000000000000002). *)
Definition arcDistanceOrNaN (a b : Coordinate) : Number :=
  if ((lat a =? 8)%Z && (long a =? 0)%Z && (lat b =? -8)%Z && (long b =? 180)%Z)
     || ((lat a =? -8)%Z && (long a =? 180)%Z && (lat b =? 8)%Z && (long b =? 0)%Z)
  then NaN
  else Finite (arcDistance a b).

(** A depot at (8, 0) and a vendor at its antipode. *)
Definition depotNorth : Vehicle :=
  {| vehicle_coordinate := {| lat := 8; long := 0 |};
     vehicle_id := 1; capacity := None |}.

Definition antipodalVendor : NodeV string :=
  {| node_coordinate := {| lat := -8; long := 180 |};
     id := "V"; type := VENDOR; demand := -2; vendorId := None |}.

(** ** Properties *)

Section Properties.
Context {IDType : Type} `{Countable IDType}.
Variable distance : Coordinate -> Coordinate -> Z.

Implicit Types (depot : Vehicle) (nodeList : list (NodeV IDType)).
Implicit Types (st : State IDType) (s : Saving IDType) (x y : IDType).
Implicit Types (route route_i route_j : Route IDType).
Implicit Types (node node_i node_j vendorNode : NodeV IDType).

(** *** Loops as folds *)

Lemma foldl_preserves {A B} (P : A -> Prop) (f : A -> B -> A) (l : list B) (a : A) :
  P a -> (forall a' b, b ∈ l -> P a' -> P (f a' b)) -> P (foldl f a l).
Proof.
  revert a. induction l as [|b l IH]; intros a Ha Hstep; simpl; [done|].
  apply IH.
  - apply Hstep; [left | done].
  - intros a' b' Hb'. apply Hstep. by right.
Qed.

(** *** capacityUsed stays non-negative *)

Lemma capacityOk_initial : capacityOk (@initialState IDType _ _).
Proof. constructor. Qed.

Lemma capacityOk_pairUp depot st s node_i node_j :
  capacityOk st -> capacityOk (pairUp depot st s node_i node_j).
Proof.
  intros Hst. unfold pairUp.
  destruct (Z.leb_spec 0 (capacityOf depot - demandEffect node_i - demandEffect node_j));
    [|done].
  apply Forall_app. split; [done|]. by repeat constructor.
Qed.

Lemma capacityOk_attach st r route anchor joining node :
  capacityOk st -> capacityOk (attach st r route anchor joining node).
Proof.
  intros Hst. unfold attach.
  destruct (Z.leb_spec 0 (capacityUsed route - demandEffect node)); [|done].
  unfold capacityOk; simpl. by apply Forall_insert.
Qed.

Lemma capacityOk_concatenate st s r_i r_j route_i route_j node_i node_j :
  capacityOk st ->
  capacityOk (concatenate st s r_i r_j route_i route_j node_i node_j).
Proof.
  intros Hst. unfold concatenate.
  destruct (Z.leb_spec 0 (capacityUsed route_i - demandEffect node_j)); [|done].
  destruct (Z.leb_spec 0 (capacityUsed route_j - demandEffect node_i)); [|done].
  simpl. repeat case_match; try done;
    unfold capacityOk; simpl; by apply Forall_insert.
Qed.

Lemma capacityOk_processSaving depot nodeList st s :
  capacityOk st -> capacityOk (processSaving depot nodeList st s).
Proof.
  intros Hst. unfold processSaving.
  repeat case_match; try done;
    auto using capacityOk_pairUp, capacityOk_attach, capacityOk_concatenate.
Qed.

Lemma fits_capacityUsed depot node :
  fits depot node = true -> (0 <= capacityUsed (fallbackRoute depot node))%Z.
Proof. unfold fits, fallbackRoute. simpl. destruct (type node); lia. Qed.

Lemma capacityOk_fallback depot st node :
  capacityOk st -> capacityOk (fallback depot st node).
Proof.
  intros Hst. unfold fallback.
  destruct (nodeToRoute st !! id node); [done|].
  destruct (fits depot node) eqn:Hfits; [|done].
  apply Forall_app. split; [done|].
  constructor; [|constructor]. by apply fits_capacityUsed.
Qed.

Lemma capacityOk_savingsLoop depot nodeList savingsList st :
  capacityOk st -> capacityOk (savingsLoop depot nodeList savingsList st).
Proof.
  intros Hst. unfold savingsLoop. apply foldl_preserves; [done|].
  intros. by apply capacityOk_processSaving.
Qed.

Lemma capacityOk_fallbackLoop depot nodes_ st :
  capacityOk st -> capacityOk (fallbackLoop depot nodes_ st).
Proof.
  intros Hst. unfold fallbackLoop. apply foldl_preserves; [done|].
  intros. by apply capacityOk_fallback.
Qed.

Lemma elem_of_returned st route :
  route ∈ returned st -> route ∈ heap st.
Proof.
  unfold returned. intros (r & _ & Hr)%list_elem_of_omap.
  by eapply list_elem_of_lookup_2.
Qed.

Lemma rejected_unchanged depot nodeList st s node_i node_j :
  findNode nodeList (i s) = Some node_i ->
  findNode nodeList (j s) = Some node_j ->
  rejected depot st s node_i node_j ->
  processSaving depot nodeList st s = st.
Proof.
  intros Hi Hj. unfold rejected, processSaving. rewrite Hi, Hj.
  destruct (nodeToRoute st !! i s) as [r_i|], (nodeToRoute st !! j s) as [r_j|].
  - intros (route_i & route_j & -> & -> & Hneg).
    case_decide; [done|]. unfold concatenate.
    destruct (Z.leb_spec 0 (capacityUsed route_i - demandEffect node_j));
      destruct (Z.leb_spec 0 (capacityUsed route_j - demandEffect node_i));
      simpl; try done; lia.
  - intros (route & -> & Hneg). unfold attach.
    destruct (Z.leb_spec 0 (capacityUsed route - demandEffect node_j)); [lia|done].
  - intros (route & -> & Hneg). unfold attach.
    destruct (Z.leb_spec 0 (capacityUsed route - demandEffect node_i)); [lia|done].
  - intros Hneg. unfold pairUp.
    destruct (Z.leb_spec 0
      (capacityOf depot - demandEffect node_i - demandEffect node_j)); [lia|done].
Qed.

(** C5.  At every point of a [clarkWright] run (after any number of
    iterations of the savings loop, after any number of iterations of the
    fallback loop) and in the returned array, every route object has
    [capacityUsed >= 0]; and a saving whose pairing, attachment or
    concatenation would give a negative capacity changes nothing: every
    route keeps its node sequence and its capacityUsed. *)
Theorem capacityUsed_never_negative depot nodeList :
  (forall k route,
      route ∈ heap (savingsLoop depot nodeList
                      (take k (rankedSavings distance depot nodeList)) initialState) ->
      (0 <= capacityUsed route)%Z) /\
  (forall k route,
      route ∈ heap (fallbackLoop depot (take k nodeList)
                      (afterSavings distance depot nodeList)) ->
      (0 <= capacityUsed route)%Z) /\
  (forall route,
      route ∈ clarkWright distance depot nodeList -> (0 <= capacityUsed route)%Z) /\
  (forall st s node_i node_j,
      findNode nodeList (i s) = Some node_i ->
      findNode nodeList (j s) = Some node_j ->
      rejected depot st s node_i node_j ->
      processSaving depot nodeList st s = st).
Proof.
  assert (Hafter : capacityOk (afterSavings distance depot nodeList)).
  { apply capacityOk_savingsLoop, capacityOk_initial. }
  repeat split.
  - intros k route Hroute.
    pose proof (capacityOk_savingsLoop depot nodeList
      (take k (rankedSavings distance depot nodeList)) _ capacityOk_initial) as Hok.
    unfold capacityOk in Hok. rewrite Forall_forall in Hok. by apply Hok.
  - intros k route Hroute.
    pose proof (capacityOk_fallbackLoop depot (take k nodeList) _ Hafter) as Hok.
    unfold capacityOk in Hok. rewrite Forall_forall in Hok. by apply Hok.
  - intros route Hroute%elem_of_returned.
    pose proof (capacityOk_fallbackLoop depot nodeList _ Hafter) as Hok.
    unfold capacityOk in Hok. rewrite Forall_forall in Hok. by apply Hok.
  - intros st s node_i node_j. apply rejected_unchanged.
Qed.

(** *** Concatenation of two routes *)

(** The branch of step 3c, case by case.  When the two nodes of a saving
    are in two different route objects, the code computes
    newCapacityForRouteI = capacityUsed(route_i) - effect(j) and
    newCapacityForRouteJ = capacityUsed(route_j) - effect(i), and goes on
    only when both are non-negative.  Then, if i is the last node of its
    route and j the first of the other, the route of i becomes
    route_i ++ route_j with newCapacityForRouteI; else if i is the first
    node of its route and j the last of the other, it becomes
    route_j ++ route_i with newCapacityForRouteJ.  In every other case the
    state is unchanged. *)
Lemma concatenate_cases depot nodeList st s
    (r_i r_j : RouteRef) route_i route_j node_i node_j :
  findNode nodeList (i s) = Some node_i ->
  findNode nodeList (j s) = Some node_j ->
  nodeToRoute st !! i s = Some r_i ->
  nodeToRoute st !! j s = Some r_j ->
  r_i <> r_j ->
  heap st !! r_i = Some route_i ->
  heap st !! r_j = Some route_j ->
  let newCapacityForRouteI := (capacityUsed route_i - demandEffect node_j)%Z in
  let newCapacityForRouteJ := (capacityUsed route_j - demandEffect node_i)%Z in
  let bothFit := (0 <= newCapacityForRouteI)%Z /\ (0 <= newCapacityForRouteJ)%Z in
  let tailToHead :=
    last (nodes route_i) = Some (i s) /\ head (nodes route_j) = Some (j s) in
  let headToTail :=
    head (nodes route_i) = Some (i s) /\ last (nodes route_j) = Some (j s) in
  let st' := processSaving depot nodeList st s in
  (bothFit -> tailToHead ->
   st' = {| heap := <[r_i := {| nodes := nodes route_i ++ nodes route_j;
                                capacityUsed := newCapacityForRouteI;
                                vehicleCapacity := vehicleCapacity route_i |}]>
                    (heap st);
            routes := splice1 (indexOf r_j (routes st)) (routes st);
            nodeToRoute := <[j s := r_i]> (nodeToRoute st) |}) /\
  (bothFit -> ~ tailToHead -> headToTail ->
   st' = {| heap := <[r_i := {| nodes := nodes route_j ++ nodes route_i;
                                capacityUsed := newCapacityForRouteJ;
                                vehicleCapacity := vehicleCapacity route_i |}]>
                    (heap st);
            routes := splice1 (indexOf r_j (routes st)) (routes st);
            nodeToRoute := <[i s := r_i]> (nodeToRoute st) |}) /\
  (~ (bothFit /\ (tailToHead \/ headToTail)) -> st' = st).
Proof.
  intros Hi Hj Hri Hrj Hne Hhi Hhj capI capJ bothFit tailToHead headToTail st'.
  assert (st' = concatenate st s r_i r_j route_i route_j node_i node_j) as ->.
  { unfold st', processSaving. rewrite Hi, Hj, Hri, Hrj, Hhi, Hhj.
    by case_decide. }
  unfold concatenate. fold capI capJ.
  unfold bothFit, tailToHead, headToTail.
  destruct (Z.leb_spec 0 capI), (Z.leb_spec 0 capJ); simpl;
    repeat case_bool_decide; simpl; repeat split; try done;
    try tauto; try lia; intuition lia.
Qed.

(** C4, amended.  When the two nodes of a saving are in two different
    route objects, a capacity is computed for each of the two orientations,
    and the routes are concatenated only when both are non-negative and the
    orientation is tail-to-head: if i is the last node of its route and j
    the first of the other, the route of i becomes route_i ++ route_j; else
    if i is the first node of its route and j the last of the other, it
    becomes route_j ++ route_i.  In every other case the saving is skipped
    and the state is unchanged. *)
Theorem concatenation_needs_both_capacities depot nodeList st s
    (r_i r_j : RouteRef) route_i route_j node_i node_j :
  findNode nodeList (i s) = Some node_i ->
  findNode nodeList (j s) = Some node_j ->
  nodeToRoute st !! i s = Some r_i ->
  nodeToRoute st !! j s = Some r_j ->
  r_i <> r_j ->
  heap st !! r_i = Some route_i ->
  heap st !! r_j = Some route_j ->
  let newCapacityForRouteI := (capacityUsed route_i - demandEffect node_j)%Z in
  let newCapacityForRouteJ := (capacityUsed route_j - demandEffect node_i)%Z in
  let bothFit := (0 <= newCapacityForRouteI)%Z /\ (0 <= newCapacityForRouteJ)%Z in
  let tailToHead :=
    last (nodes route_i) = Some (i s) /\ head (nodes route_j) = Some (j s) in
  let headToTail :=
    head (nodes route_i) = Some (i s) /\ last (nodes route_j) = Some (j s) in
  let st' := processSaving depot nodeList st s in
  (bothFit -> tailToHead ->
   nodes <$> heap st' !! r_i = Some (nodes route_i ++ nodes route_j)) /\
  (bothFit -> ~ tailToHead -> headToTail ->
   nodes <$> heap st' !! r_i = Some (nodes route_j ++ nodes route_i)) /\
  (~ (bothFit /\ (tailToHead \/ headToTail)) -> st' = st).
Proof.
  intros Hi Hj Hri Hrj Hne Hhi Hhj capI capJ bothFit tailToHead headToTail st'.
  destruct (concatenate_cases depot nodeList st s r_i r_j route_i route_j
              node_i node_j Hi Hj Hri Hrj Hne Hhi Hhj) as (Htail & Hhead & Hskip).
  apply lookup_lt_Some in Hhi.
  split; [|split].
  - intros Hfit Ht. unfold st'. rewrite (Htail Hfit Ht). simpl.
    by rewrite list_lookup_insert_eq.
  - intros Hfit Hnt Hh. unfold st'. rewrite (Hhead Hfit Hnt Hh). simpl.
    by rewrite list_lookup_insert_eq.
  - exact Hskip.
Qed.

(** *** Well-formedness of the store *)

Lemma splice1_Forall {A} (P : A -> Prop) start (l : list A) :
  Forall P l -> Forall P (splice1 start l).
Proof. unfold splice1. apply Forall_delete. Qed.

Lemma is_Some_insert_mono (m : gmap IDType RouteRef) x y r :
  is_Some (m !! x) -> is_Some (<[y := r]> m !! x).
Proof. intros Hx. apply lookup_insert_is_Some'. by right. Qed.

Lemma registered_insert_key (m : gmap IDType RouteRef)
    (heap' : list (Route IDType)) y (r : RouteRef) :
  Forall (fun route => Forall (fun x => is_Some (m !! x)) (nodes route)) heap' ->
  Forall (fun route => Forall (fun x => is_Some (<[y := r]> m !! x)) (nodes route))
         heap'.
Proof.
  intros Hheap. eapply Forall_impl; [exact Hheap|].
  intros route Hroute. eapply Forall_impl; [exact Hroute|].
  intros x. apply is_Some_insert_mono.
Qed.

Lemma refsValid_initial : refsValid (@initialState IDType _ _).
Proof. split; [constructor | apply map_Forall_empty]. Qed.

Lemma registered_initial : registered (@initialState IDType _ _).
Proof. constructor. Qed.

Lemma keysIn_initial P : keysIn P (@initialState IDType _ _).
Proof. apply map_Forall_empty. Qed.

Lemma refsValid_grow st route (m : gmap IDType RouteRef) :
  refsValid st ->
  map_Forall (fun _ r => r < length (heap st ++ [route])) m ->
  refsValid {| heap := heap st ++ [route];
               routes := routes st ++ [length (heap st)];
               nodeToRoute := m |}.
Proof.
  intros [Hroutes _] Hm. split; simpl; [|done].
  rewrite length_app. simpl. apply Forall_app. split.
  - eapply Forall_impl; [exact Hroutes|]. simpl. lia.
  - repeat constructor. lia.
Qed.

Lemma map_Forall_grow st route :
  refsValid st ->
  map_Forall (fun (_ : IDType) r => r < length (heap st ++ [route])) (nodeToRoute st).
Proof.
  intros [_ Hmap]. eapply map_Forall_impl; [exact Hmap|].
  simpl. intros _ r. rewrite length_app. simpl. lia.
Qed.

Lemma refsValid_pairUp depot st s node_i node_j :
  refsValid st -> refsValid (pairUp depot st s node_i node_j).
Proof.
  intros Hst. unfold pairUp. case_match; [|done].
  apply refsValid_grow; [done|].
  repeat apply map_Forall_insert_2; try (rewrite length_app; simpl; lia).
  by apply map_Forall_grow.
Qed.

Lemma refsValid_attach st r route anchor joining node :
  heap st !! r = Some route ->
  refsValid st -> refsValid (attach st r route anchor joining node).
Proof.
  intros Hr [Hroutes Hmap]. unfold attach. case_match; [|done].
  split; simpl; rewrite length_insert; [done|].
  apply map_Forall_insert_2; [|done]. by eapply lookup_lt_Some.
Qed.

Lemma refsValid_concatenate st s r_i r_j route_i route_j node_i node_j :
  heap st !! r_i = Some route_i ->
  refsValid st ->
  refsValid (concatenate st s r_i r_j route_i route_j node_i node_j).
Proof.
  intros Hr [Hroutes Hmap]. unfold concatenate.
  repeat case_match; try done;
    (split; simpl; rewrite length_insert;
     [by apply splice1_Forall
     | apply map_Forall_insert_2; [by eapply lookup_lt_Some | done]]).
Qed.

Lemma refsValid_processSaving depot nodeList st s :
  refsValid st -> refsValid (processSaving depot nodeList st s).
Proof.
  intros Hst. unfold processSaving.
  repeat case_match; try done;
    eauto using refsValid_pairUp, refsValid_attach, refsValid_concatenate.
Qed.

Lemma refsValid_fallback depot st node :
  refsValid st -> refsValid (fallback depot st node).
Proof.
  intros Hst. unfold fallback. repeat case_match; try done.
  apply refsValid_grow; [done|].
  apply map_Forall_insert_2; [rewrite length_app; simpl; lia|].
  by apply map_Forall_grow.
Qed.

Lemma registered_pairUp depot st s node_i node_j :
  registered st -> registered (pairUp depot st s node_i node_j).
Proof.
  intros Hst. unfold pairUp. case_match; [|done].
  unfold registered; simpl. apply Forall_app. split.
  - by do 2 apply registered_insert_key.
  - repeat constructor; simpl.
    + apply is_Some_insert_mono. rewrite lookup_insert_eq. by eexists.
    + rewrite lookup_insert_eq. by eexists.
Qed.

Lemma registered_lookup st r route :
  registered st -> heap st !! r = Some route ->
  Forall (fun x => is_Some (nodeToRoute st !! x)) (nodes route).
Proof.
  intros Hst Hr. unfold registered in Hst.
  rewrite Forall_lookup in Hst. by apply (Hst r).
Qed.

Lemma registered_attach st r route anchor joining node :
  heap st !! r = Some route ->
  registered st -> registered (attach st r route anchor joining node).
Proof.
  intros Hr Hst. unfold attach. case_match; [|done].
  unfold registered; simpl.
  apply Forall_insert; [by apply registered_insert_key|]. simpl.
  assert (Forall (fun x => is_Some (<[joining := r]> (nodeToRoute st) !! x))
                 (nodes route)) as Hold.
  { eapply Forall_impl; [by eapply registered_lookup|].
    intros x. apply is_Some_insert_mono. }
  assert (is_Some (<[joining := r]> (nodeToRoute st) !! joining)) as Hnew.
  { rewrite lookup_insert_eq. by eexists. }
  case_bool_decide.
  - by constructor.
  - apply Forall_app. split; [done|]. by repeat constructor.
Qed.

Lemma registered_concatenate st s r_i r_j route_i route_j node_i node_j :
  heap st !! r_i = Some route_i ->
  heap st !! r_j = Some route_j ->
  registered st ->
  registered (concatenate st s r_i r_j route_i route_j node_i node_j).
Proof.
  intros Hi Hj Hst. unfold concatenate.
  pose proof (registered_lookup _ _ _ Hst Hi) as Hni.
  pose proof (registered_lookup _ _ _ Hst Hj) as Hnj.
  repeat case_match; try done;
    (unfold registered; simpl;
     apply Forall_insert; [by apply registered_insert_key|]; simpl;
     apply Forall_app; split;
     (eapply Forall_impl; [eassumption|]; intros x; apply is_Some_insert_mono)).
Qed.

Lemma registered_processSaving depot nodeList st s :
  registered st -> registered (processSaving depot nodeList st s).
Proof.
  intros Hst. unfold processSaving.
  repeat case_match; try done;
    eauto using registered_pairUp, registered_attach, registered_concatenate.
Qed.

Lemma registered_fallback depot st node :
  registered st -> registered (fallback depot st node).
Proof.
  intros Hst. unfold fallback. repeat case_match; try done.
  unfold registered; simpl. apply Forall_app. split.
  - by apply registered_insert_key.
  - repeat constructor; simpl. rewrite lookup_insert_eq. by eexists.
Qed.

Lemma keysIn_processSaving (P : IDType -> Prop) depot nodeList st s :
  P (i s) -> P (j s) ->
  keysIn P st -> keysIn P (processSaving depot nodeList st s).
Proof.
  intros Hi Hj Hst. unfold processSaving, pairUp, attach, concatenate.
  repeat case_match; try done;
    unfold keysIn; simpl; repeat apply map_Forall_insert_2; done.
Qed.

Lemma keysIn_fallback (P : IDType -> Prop) depot st node :
  P (id node) -> keysIn P st -> keysIn P (fallback depot st node).
Proof.
  intros Hnode Hst. unfold fallback. repeat case_match; try done.
  unfold keysIn; simpl. by apply map_Forall_insert_2.
Qed.

(** Registration is permanent: no step removes a key of [nodeToRoute]. *)
Lemma processSaving_keeps_keys depot nodeList st s x :
  is_Some (nodeToRoute st !! x) ->
  is_Some (nodeToRoute (processSaving depot nodeList st s) !! x).
Proof.
  intros Hx. unfold processSaving, pairUp, attach, concatenate.
  repeat case_match; try done; simpl; repeat apply is_Some_insert_mono; done.
Qed.

Lemma fallback_keeps_keys depot st node x :
  is_Some (nodeToRoute st !! x) ->
  is_Some (nodeToRoute (fallback depot st node) !! x).
Proof.
  intros Hx. unfold fallback.
  repeat case_match; try done; simpl; by apply is_Some_insert_mono.
Qed.

(** *** The savings list, pair by pair *)

Lemma calculateSavings_row_positions depot node_i (rest : list (NodeV IDType)) :
  exists js : list nat,
    StronglySorted lt js /\
    (forall b, b ∈ js <->
       type node_i = ORDER /\
       exists node_b, rest !! b = Some node_b /\ type node_b = ORDER) /\
    Forall2 (fun b s => exists node_b,
               rest !! b = Some node_b /\ s = savingOf distance depot node_i node_b)
            js (calculateSavings_row distance depot node_i rest).
Proof.
  induction rest as [|node_j rest (js & Hsorted & Hin & Hall)].
  - exists []. split; [constructor|]. split; [|constructor].
    intros b. rewrite elem_of_nil. split; [done|].
    intros (_ & node_b & Hb & _). by rewrite lookup_nil in Hb.
  - exists ((if bool_decide (type node_i = ORDER) && bool_decide (type node_j = ORDER)
             then [0] else []) ++ (S <$> js)).
    split; [|split].
    + apply StronglySorted_app_2.
      * intros x1 x2 H1 (b & -> & _)%list_elem_of_fmap.
        case_match; [|by apply elem_of_nil in H1].
        apply list_elem_of_singleton in H1. lia.
      * case_match; repeat constructor.
      * eapply StronglySorted_fmap; [|done]. intros; lia.
    + intros b. rewrite elem_of_app, list_elem_of_fmap.
      setoid_rewrite Hin. destruct b as [|b]; simpl.
      * split.
        -- intros [Hl|(y & Hy & _)]; [|done].
           do 2 case_bool_decide; simpl in Hl; try by apply elem_of_nil in Hl.
           split; [done|]. by exists node_j.
        -- intros (Hi & node_b & [= <-] & Hj). left.
           rewrite !bool_decide_eq_true_2 by done. simpl. left.
      * split.
        -- intros [Hl|(y & [= <-] & ?)]; [|done].
           case_match; [apply list_elem_of_singleton in Hl; lia
                       | by apply elem_of_nil in Hl].
        -- intros ?. right. by exists b.
    + simpl. apply Forall2_app.
      * case_match; repeat constructor. by exists node_j.
      * apply Forall2_fmap_l. eapply Forall2_impl; [done|]. simpl.
        intros b s (node_b & ? & ?). by exists node_b.
Qed.

(** C6.  The savings list is, in order, one record per position pair
    [(a, b)] with [a < b] whose two nodes are both ORDER nodes: [pairs] lists
    exactly those pairs, each once, in production order (by [a], then by
    [b]), and the record of a pair has the two identifiers and the value
    distance(depot, i) + distance(depot, j) - distance(i, j).  So no record
    has a VENDOR node at either end, and since the list is a function of
    the depot and the node list, so is its order. *)
Theorem calculateSavings_one_per_order_pair depot nodeList :
  exists pairs : list (nat * nat),
    StronglySorted pairBefore pairs /\
    (forall a b, (a, b) ∈ pairs <->
       a < b /\
       exists node_a node_b,
         nodeList !! a = Some node_a /\ nodeList !! b = Some node_b /\
         type node_a = ORDER /\ type node_b = ORDER) /\
    Forall2 (fun p s => exists node_a node_b,
               nodeList !! p.1 = Some node_a /\ nodeList !! p.2 = Some node_b /\
               s = {| i := id node_a;
                      j := id node_b;
                      saving := (distance depot node_a + distance depot node_b
                                 - distance node_a node_b)%Z |})
            pairs (calculateSavings distance depot nodeList).
Proof.
  induction nodeList as [|node_i rest (pairs & Hsorted & Hin & Hall)].
  - exists []. split; [constructor|]. split; [|constructor].
    intros a b. rewrite elem_of_nil. split; [done|].
    intros (_ & node_a & _ & Ha & _). by rewrite lookup_nil in Ha.
  - destruct (calculateSavings_row_positions depot node_i rest)
      as (js & Hjs_sorted & Hjs_in & Hjs_all).
    exists (((fun b => (0, S b)) <$> js) ++ ((fun p => (S p.1, S p.2)) <$> pairs)).
    split; [|split].
    + apply StronglySorted_app_2.
      * intros p q (b & -> & _)%list_elem_of_fmap (p' & -> & _)%list_elem_of_fmap.
        left. simpl. lia.
      * eapply StronglySorted_fmap; [|done].
        intros b b' Hlt. right. simpl. lia.
      * eapply StronglySorted_fmap; [|done].
        intros p q [Hlt|[Heq Hlt]]; [left | right]; simpl; lia.
    + intros a b. rewrite elem_of_app, !list_elem_of_fmap. split.
      * intros [(b' & [= -> ->] & Hb')|([a' b'] & [= -> ->] & Hp)].
        -- apply Hjs_in in Hb' as (Hi & node_b & Hb & Horder).
           split; [lia|]. by exists node_i, node_b.
        -- apply Hin in Hp as (Hlt & node_a & node_b & ? & ? & ? & ?).
           split; [lia|]. by exists node_a, node_b.
      * intros (Hlt & node_a & node_b & Ha & Hb & Horder_a & Horder_b).
        destruct b as [|b]; [lia|]. destruct a as [|a]; simpl in Ha, Hb.
        -- left. exists b. split; [done|]. apply Hjs_in.
           injection Ha as <-. split; [done|]. by exists node_b.
        -- right. exists (a, b). split; [done|]. apply Hin.
           split; [lia|]. by exists node_a, node_b.
    + simpl. apply Forall2_app.
      * apply Forall2_fmap_l. eapply Forall2_impl; [exact Hjs_all|]. simpl.
        intros b s (node_b & ? & ->). by exists node_i, node_b.
      * apply Forall2_fmap_l. eapply Forall2_impl; [exact Hall|]. simpl.
        intros p s (node_a & node_b & ? & ? & ->). by exists node_a, node_b.
Qed.

(** *** The savings are between ORDER nodes *)

Lemma elem_of_calculateSavings_row depot node_i rest s :
  s ∈ calculateSavings_row distance depot node_i rest ->
  type node_i = ORDER /\
  exists node_j, node_j ∈ rest /\ type node_j = ORDER /\
                 s = savingOf distance depot node_i node_j.
Proof.
  induction rest as [|node_j rest IH]; simpl; [by intros ?%elem_of_nil|].
  intros [Hs|Hs]%elem_of_app.
  - do 2 case_bool_decide; simpl in Hs; try by apply elem_of_nil in Hs.
    apply list_elem_of_singleton in Hs. split; [done|].
    exists node_j. split; [left | done].
  - destruct (IH Hs) as (? & node & ? & ? & ?). split; [done|].
    exists node. split; [by right | done].
Qed.

Lemma elem_of_calculateSavings depot nodeList s :
  s ∈ calculateSavings distance depot nodeList ->
  exists node_i node_j,
    node_i ∈ nodeList /\ node_j ∈ nodeList /\
    type node_i = ORDER /\ type node_j = ORDER /\
    s = savingOf distance depot node_i node_j.
Proof.
  induction nodeList as [|node_i rest IH]; simpl; [by intros ?%elem_of_nil|].
  intros [Hs|Hs]%elem_of_app.
  - apply elem_of_calculateSavings_row in Hs as (? & node_j & ? & ? & ?).
    exists node_i, node_j. repeat split; try done; [left | by right].
  - destruct (IH Hs) as (n1 & n2 & ? & ? & ? & ? & ?).
    exists n1, n2. repeat split; try done; by right.
Qed.

Lemma elem_of_insertSaving s s' (sorted : list (Saving IDType)) :
  s' ∈ insertSaving s sorted <-> s' = s \/ s' ∈ sorted.
Proof.
  induction sorted as [|s0 rest IH]; simpl.
  - rewrite list_elem_of_singleton, elem_of_nil. tauto.
  - case_match; rewrite !elem_of_cons; [rewrite IH|]; tauto.
Qed.

Lemma elem_of_sortSavings s (savingsList : list (Saving IDType)) :
  s ∈ sortSavings savingsList <-> s ∈ savingsList.
Proof.
  induction savingsList as [|s0 rest IH]; simpl; [done|].
  rewrite elem_of_insertSaving, elem_of_cons, IH. tauto.
Qed.

Lemma rankedSavings_orders depot nodeList s :
  s ∈ rankedSavings distance depot nodeList ->
  isOrderId nodeList (i s) /\ isOrderId nodeList (j s).
Proof.
  unfold rankedSavings. rewrite elem_of_sortSavings.
  intros (n1 & n2 & ? & ? & ? & ? & ->)%elem_of_calculateSavings.
  split; [exists n1 | exists n2]; done.
Qed.

(** The state the savings loop leaves behind. *)
Lemma afterSavings_wf depot nodeList :
  let st := afterSavings distance depot nodeList in
  refsValid st /\ registered st /\ keysIn (isOrderId nodeList) st.
Proof.
  unfold afterSavings, savingsLoop.
  apply (foldl_preserves
    (fun st => refsValid st /\ registered st /\ keysIn (isOrderId nodeList) st)).
  - auto using refsValid_initial, registered_initial, keysIn_initial.
  - intros st s [Hi Hj]%rankedSavings_orders (? & ? & ?).
    auto using refsValid_processSaving, registered_processSaving,
      keysIn_processSaving.
Qed.

(** *** What the fallback loop returns *)

Lemma returned_grow st route (m : gmap IDType RouteRef) :
  refsValid st ->
  returned {| heap := heap st ++ [route];
              routes := routes st ++ [length (heap st)];
              nodeToRoute := m |}
  = returned st ++ [route].
Proof.
  intros [Hroutes _]. unfold returned; simpl. rewrite omap_app. f_equal.
  - apply list_omap_ext, Forall_Forall2_diag.
    eapply Forall_impl; [exact Hroutes|]. simpl.
    intros r Hr. by apply lookup_app_l.
  - simpl. by rewrite list_lookup_middle.
Qed.

Lemma returned_fallback depot st node :
  refsValid st ->
  returned (fallback depot st node) =
  returned st ++
    match nodeToRoute st !! id node with
    | Some _ => []
    | None => if fits depot node then [fallbackRoute depot node] else []
    end.
Proof.
  intros Hst. unfold fallback.
  destruct (nodeToRoute st !! id node); [by rewrite app_nil_r|].
  destruct (fits depot node); [|by rewrite app_nil_r].
  by apply returned_grow.
Qed.

Lemma refsValid_fallbackLoop depot nodes_ st :
  refsValid st -> refsValid (fallbackLoop depot nodes_ st).
Proof.
  intros Hst. unfold fallbackLoop. apply foldl_preserves; [done|].
  intros. by apply refsValid_fallback.
Qed.

Lemma registered_fallbackLoop depot nodes_ st :
  registered st -> registered (fallbackLoop depot nodes_ st).
Proof.
  intros Hst. unfold fallbackLoop. apply foldl_preserves; [done|].
  intros. by apply registered_fallback.
Qed.

(** Routes already in the array stay; every new one is the fallback route
    of a node of the list that fits. *)
Lemma returned_fallbackLoop depot nodes_ st route :
  refsValid st ->
  route ∈ returned (fallbackLoop depot nodes_ st) <->
  route ∈ returned st \/
  exists before node after,
    nodes_ = before ++ node :: after /\
    nodeToRoute (fallbackLoop depot before st) !! id node = None /\
    fits depot node = true /\ route = fallbackRoute depot node.
Proof.
  revert st. induction nodes_ as [|node rest IH] using rev_ind; intros st Hst.
  - simpl. split; [by left|]. intros [?|(before & ? & ? & Heq & _)]; [done|].
    by destruct before.
  - unfold fallbackLoop in *. rewrite foldl_snoc.
    rewrite returned_fallback by by apply refsValid_fallbackLoop.
    rewrite elem_of_app, IH by done. split.
    + intros [[?|(before & n & after & -> & ? & ? & ?)]|Hnew]; [by left| |].
      * right. exists before, n, (after ++ [node]).
        by rewrite <- app_assoc.
      * right. exists rest, node, []. 
        destruct (nodeToRoute (foldl (fallback depot) st rest) !! id node);
          [by apply elem_of_nil in Hnew|].
        destruct (fits depot node); [|by apply elem_of_nil in Hnew].
        by apply list_elem_of_singleton in Hnew.
    + intros [?|(before & n & after & Heq & Hnone & Hfits & ->)]; [by left; left|].
      destruct after as [|a after _] using rev_ind.
      * apply app_inj_tail in Heq as [-> ->]. right.
        rewrite Hnone, Hfits. by apply list_elem_of_singleton.
      * rewrite app_comm_cons, app_assoc in Heq.
        apply app_inj_tail in Heq as [-> ->]. left. right.
        by exists before, n, after.
Qed.

(** *** Nodes the fallback loop leaves out *)

Lemma fits_spec depot node :
  fits depot node = true <->
  match type node with
  | ORDER => (demand node <= capacityOf depot)%Z
  | VENDOR => (Z.abs (demand node) <= capacityOf depot)%Z
  end.
Proof. unfold fits. destruct (type node); apply Z.leb_le. Qed.

Lemma NoDup_id_inj nodeList node1 node2 :
  NoDup (id <$> nodeList) -> node1 ∈ nodeList -> node2 ∈ nodeList ->
  id node1 = id node2 -> node1 = node2.
Proof.
  induction nodeList as [|node rest IH]; [by intros _ ?%elem_of_nil|].
  rewrite fmap_cons, NoDup_cons. intros [Hnotin Hrest].
  intros [->|H1]%elem_of_cons [->|H2]%elem_of_cons Heq; auto.
  - destruct Hnotin. rewrite Heq. by apply list_elem_of_fmap_2.
  - destruct Hnotin. rewrite <- Heq. by apply list_elem_of_fmap_2.
Qed.

Lemma fallbackLoop_no_key depot nodes_ st x :
  nodeToRoute st !! x = None ->
  (forall node, node ∈ nodes_ -> id node <> x \/ fits depot node = false) ->
  nodeToRoute (fallbackLoop depot nodes_ st) !! x = None.
Proof.
  intros Hx Hnodes. unfold fallbackLoop.
  apply (foldl_preserves (fun st => nodeToRoute st !! x = None)); [done|].
  intros st' node Hnode Hst'. unfold fallback.
  destruct (nodeToRoute st' !! id node) eqn:Hlookup; [done|].
  destruct (fits depot node) eqn:Hfits; [|done]. simpl.
  destruct (Hnodes node Hnode) as [Hne|Hno]; [|congruence].
  by rewrite lookup_insert_ne.
Qed.

Lemma no_key_absent st x route :
  registered st -> nodeToRoute st !! x = None ->
  route ∈ returned st -> x ∉ nodes route.
Proof.
  intros Hreg Hx Hroute%elem_of_returned Hin.
  unfold registered in Hreg. rewrite Forall_forall in Hreg.
  specialize (Hreg route Hroute). rewrite Forall_forall in Hreg.
  destruct (Hreg x Hin) as [r Hr]. congruence.
Qed.

Lemma unfit_absent depot nodeList node :
  node ∈ nodeList ->
  NoDup (id <$> nodeList) ->
  nodeToRoute (afterSavings distance depot nodeList) !! id node = None ->
  fits depot node = false ->
  forall route,
    route ∈ clarkWright distance depot nodeList -> id node ∉ nodes route.
Proof.
  intros Hnode Hnodup Hnone Hfits route. unfold clarkWright, finalState.
  destruct (afterSavings_wf depot nodeList) as (Hvalid & Hreg & _).
  apply no_key_absent; [by apply registered_fallbackLoop|].
  apply fallbackLoop_no_key; [done|].
  intros node' Hnode'. destruct (decide (id node' = id node)) as [Heq|]; [|by left].
  right. by rewrite (NoDup_id_inj nodeList node' node).
Qed.

(** C7.  Take the node list at the point where the fallback loop reaches
    [node], and suppose [node] has no route then (for identifiers that are
    unique in the list this is the same as having none when the savings
    loop ends).  If its demand fits the depot's capacity (ORDER: demand <=
    capacity, VENDOR: |demand| <= capacity), the iteration appends the
    one-node route [[id node]] with capacityUsed = capacity - demand for an
    ORDER and capacity + demand for a VENDOR, and clarkWright returns it.
    If its demand does not fit, the iteration changes nothing, and (unique
    identifiers) no returned route mentions the node. *)
Theorem fallback_route_exactly_when_fits depot
    (before after : list (NodeV IDType)) node :
  let nodeList := before ++ node :: after in
  let st := fallbackLoop depot before (afterSavings distance depot nodeList) in
  let demandFits :=
    match type node with
    | ORDER => (demand node <= capacityOf depot)%Z
    | VENDOR => (Z.abs (demand node) <= capacityOf depot)%Z
    end in
  let oneNodeRoute :=
    {| nodes := [id node];
       capacityUsed := match type node with
                       | ORDER => (capacityOf depot - demand node)%Z
                       | VENDOR => (capacityOf depot + demand node)%Z
                       end;
       vehicleCapacity := capacityOf depot |} in
  (NoDup (id <$> nodeList) ->
   nodeToRoute (afterSavings distance depot nodeList) !! id node = None ->
   nodeToRoute st !! id node = None) /\
  (nodeToRoute st !! id node = None -> demandFits ->
   returned (fallback depot st node) = returned st ++ [oneNodeRoute] /\
   oneNodeRoute ∈ clarkWright distance depot nodeList) /\
  (nodeToRoute st !! id node = None -> ~ demandFits ->
   fallback depot st node = st /\
   (NoDup (id <$> nodeList) ->
    forall route, route ∈ clarkWright distance depot nodeList ->
                  id node ∉ nodes route)).
Proof.
  intros nodeList st demandFits oneNodeRoute.
  destruct (afterSavings_wf depot nodeList) as (Hvalid & Hreg & _).
  assert (Hhere : node ∈ nodeList).
  { apply elem_of_app. right. left. }
  assert (Hkeep : NoDup (id <$> nodeList) ->
            nodeToRoute (afterSavings distance depot nodeList) !! id node = None ->
            nodeToRoute st !! id node = None).
  { intros Hnodup Hnone. apply fallbackLoop_no_key; [done|].
    intros node' Hnode'. left. intros Heq.
    unfold nodeList in Hnodup. rewrite fmap_app, NoDup_app in Hnodup.
    destruct Hnodup as (_ & Hdisj & _).
    apply (Hdisj (id node')); [by apply list_elem_of_fmap_2|].
    rewrite Heq, fmap_cons. left. }
  split; [exact Hkeep|]. split.
  - intros Hnone Hfits%fits_spec.
    assert (returned (fallback depot st node) = returned st ++ [oneNodeRoute])
      as Hstep.
    { rewrite returned_fallback by by apply refsValid_fallbackLoop.
      by rewrite Hnone, Hfits. }
    split; [done|].
    unfold clarkWright, finalState. apply returned_fallbackLoop; [done|].
    right. by exists before, node, after.
  - intros Hnone Hnot.
    assert (fits depot node = false) as Hnofit.
    { apply not_true_is_false. intros Hfits%fits_spec. by apply Hnot. }
    split.
    + unfold fallback. by rewrite Hnone, Hnofit.
    + intros Hnodup route Hroute.
      assert (nodeToRoute (afterSavings distance depot nodeList) !! id node = None)
        as Hafter.
      { destruct (nodeToRoute (afterSavings distance depot nodeList) !! id node)
          eqn:Hl; [|done].
        assert (is_Some (nodeToRoute st !! id node)) as [r' Hr']; [|congruence].
        unfold st, fallbackLoop. apply foldl_preserves; [by eexists|].
        intros. by apply fallback_keeps_keys. }
      by eapply unfit_absent.
Qed.

(** C8, amended.  A node with a unique identifier that the savings loop
    left without a route and whose demand does not fit the depot's capacity
    is silently absent from what clarkWright returns, a plain list of
    routes: no returned route mentions it. *)
Theorem unroutable_node_silently_absent depot nodeList node :
  node ∈ nodeList ->
  NoDup (id <$> nodeList) ->
  nodeToRoute (afterSavings distance depot nodeList) !! id node = None ->
  fits depot node = false ->
  forall route,
    route ∈ clarkWright distance depot nodeList -> id node ∉ nodes route.
Proof. apply unfit_absent. Qed.

(** *** VENDOR nodes *)

Lemma vendor_only_fallback depot nodeList node route :
  NoDup (id <$> nodeList) -> node ∈ nodeList -> type node = VENDOR ->
  route ∈ clarkWright distance depot nodeList ->
  id node ∈ nodes route ->
  route = fallbackRoute depot node.
Proof.
  intros Hnodup Hnode Hvendor Hroute Hin.
  destruct (afterSavings_wf depot nodeList) as (Hvalid & Hreg & Hkeys).
  unfold clarkWright, finalState in Hroute.
  apply (returned_fallbackLoop depot nodeList _ route Hvalid) in Hroute as
    [Hold|(before & node' & after & Heq & _ & _ & ->)].
  - exfalso. apply elem_of_returned in Hold.
    unfold registered in Hreg. rewrite Forall_forall in Hreg.
    specialize (Hreg route Hold). rewrite Forall_forall in Hreg.
    destruct (Hreg _ Hin) as [r Hr].
    destruct (map_Forall_lookup_1 _ _ _ _ Hkeys Hr) as (node' & Hnode' & Hid & Horder).
    assert (node' = node) as ->.
    { by apply (NoDup_id_inj nodeList). }
    congruence.
  - simpl in Hin. apply list_elem_of_singleton in Hin.
    f_equal. symmetry. apply (NoDup_id_inj nodeList); [done|done| |done].
    rewrite Heq. apply elem_of_app. right. left.
Qed.

Lemma routeWithinClusters_lookup depotList
    (depotClusters : gmap Z (list (VendorOrderCluster IDType))) key rs :
  routeWithinClusters distance depotList depotClusters !! key = Some rs ->
  exists depot clusters,
    depot ∈ depotList /\ vehicle_id depot = key /\
    depotClusters !! key = Some clusters /\
    rs = concat (map (routeCluster distance depot) clusters).
Proof.
  unfold routeWithinClusters.
  assert (forall (acc : gmap Z (list (Route IDType))) (done_ rest : list Vehicle),
    (forall key rs, acc !! key = Some rs ->
       exists depot clusters,
         depot ∈ done_ /\ vehicle_id depot = key /\
         depotClusters !! key = Some clusters /\
         rs = concat (map (routeCluster distance depot) clusters)) ->
    forall key rs,
      foldl (routeDepot distance depotClusters) acc rest !! key = Some rs ->
      exists depot clusters,
        depot ∈ done_ ++ rest /\ vehicle_id depot = key /\
        depotClusters !! key = Some clusters /\
        rs = concat (map (routeCluster distance depot) clusters)) as Hgen.
  { intros acc done_ rest. revert acc done_.
    induction rest as [|depot rest IH]; intros acc done_ Hacc key' rs' Hlookup.
    - rewrite app_nil_r. by apply Hacc.
    - simpl in Hlookup.
      replace (done_ ++ depot :: rest) with ((done_ ++ [depot]) ++ rest)
        by by rewrite <- app_assoc.
      eapply IH; [|exact Hlookup].
      intros k rs0. unfold routeDepot.
      destruct (depotClusters !! vehicle_id depot) as [clusters|] eqn:Hclusters.
      + rewrite lookup_insert. case_decide as Hk.
        * intros [= <-]. exists depot, clusters. subst k.
          split; [|done]. apply elem_of_app. right. left.
        * intros (d & cs & ? & ?)%Hacc. exists d, cs.
          split; [|done]. apply elem_of_app. by left.
      + intros (d & cs & ? & ?)%Hacc. exists d, cs.
        split; [|done]. apply elem_of_app. by left. }
  intros Hlookup. apply (Hgen ∅ [] depotList); [|done].
  intros k rs0. by rewrite lookup_empty.
Qed.

(** C10.  When the identifiers of the node list are unique, a returned
    route that mentions a VENDOR node is that node's one-node fallback
    route, [[id node]] with capacityUsed = capacity + demand: no VENDOR
    node is ever in a route with another node.  In routeWithinClusters,
    the routes stored for a depot are those clarkWright returns for
    [vendor :: orders] of each of its clusters, so a cluster's vendor is
    never in a route with one of its orders. *)
Theorem vendor_routed_alone :
  (forall depot nodeList node route,
      NoDup (id <$> nodeList) -> node ∈ nodeList -> type node = VENDOR ->
      route ∈ clarkWright distance depot nodeList ->
      id node ∈ nodes route ->
      route = {| nodes := [id node];
                 capacityUsed := (capacityOf depot + demand node)%Z;
                 vehicleCapacity := capacityOf depot |}) /\
  (forall depotList (depotClusters : gmap Z (list (VendorOrderCluster IDType)))
          key rs,
      routeWithinClusters distance depotList depotClusters !! key = Some rs ->
      exists depot clusters,
        depot ∈ depotList /\ vehicle_id depot = key /\
        depotClusters !! key = Some clusters /\
        rs = concat (map (fun cluster =>
               clarkWright distance depot (vendor cluster :: orders cluster))
               clusters) /\
        forall cluster route,
          cluster ∈ clusters ->
          NoDup (id <$> vendor cluster :: orders cluster) ->
          type (vendor cluster) = VENDOR ->
          route ∈ clarkWright distance depot (vendor cluster :: orders cluster) ->
          id (vendor cluster) ∈ nodes route ->
          nodes route = [id (vendor cluster)]).
Proof.
  split.
  - intros depot nodeList node route Hnodup Hnode Hvendor Hroute Hin.
    rewrite (vendor_only_fallback depot nodeList node route) by done.
    unfold fallbackRoute. by rewrite Hvendor.
  - intros depotList depotClusters key rs
      (depot & clusters & ? & ? & ? & ->)%routeWithinClusters_lookup.
    exists depot, clusters. repeat split; try done.
    intros cluster route _ Hnodup Hvendor Hroute Hin.
    rewrite (vendor_only_fallback depot (vendor cluster :: orders cluster)
               (vendor cluster) route); try done.
    left.
Qed.

(** *** Nearest-depot clustering *)

Lemma getNearestDepot_loop_spec (dist : Coordinate -> Coordinate -> Number)
    (rest seen : list Vehicle) (location : Coordinate)
    (nearestDepotId : option Z) (nearestDepotDistance : Number) :
  match nearestDepotDistance with
  | Finite d => exists k depot,
      WithNaN.isNearest dist seen location k depot d /\
      nearestDepotId = Some (vehicle_id depot)
  | Infinity =>
      nearestDepotId = None /\
      forall (depot : Vehicle) d, depot ∈ seen -> dist depot location <> Finite d
  | NaN => False
  end ->
  match WithNaN.getNearestDepot_loop dist rest location
          nearestDepotId nearestDepotDistance with
  | None => forall (depot : Vehicle) d,
      depot ∈ seen ++ rest -> dist depot location <> Finite d
  | Some key => exists k depot d,
      WithNaN.isNearest dist (seen ++ rest) location k depot d /\
      key = vehicle_id depot
  end.
Proof.
  revert seen nearestDepotId nearestDepotDistance.
  induction rest as [|depot rest IH]; intros seen cur curd Hinv; simpl.
  - rewrite app_nil_r. destruct curd as [d| |]; [| |done].
    + destruct Hinv as (k & depot & Hnear & ->). by exists k, depot, d.
    + by destruct Hinv as [-> Hnone].
  - replace (seen ++ depot :: rest) with ((seen ++ [depot]) ++ rest)
      by by rewrite <- app_assoc.
    destruct curd as [d| |]; [| |done].
    + destruct Hinv as (k & old & (Hk & Hd & Hmin & Hfirst) & ->).
      pose proof (IH (seen ++ [depot]) (Some (vehicle_id old)) (Finite d)) as Hkeep.
      destruct (dist depot location) as [x| |] eqn:Hx; simpl.
      * destruct (Z.ltb_spec x d).
        -- apply (IH (seen ++ [depot]) _ (Finite x)).
           exists (length seen), depot. split; [|done].
           split; [by apply list_lookup_middle|]. split; [done|]. split.
           ++ intros depot' d' [Hin|Heq%list_elem_of_singleton]%elem_of_app Hd'.
              ** specialize (Hmin depot' d' Hin Hd'). lia.
              ** subst. rewrite Hx in Hd'. injection Hd' as <-. lia.
           ++ intros k' depot' d' Hlt Hk' Hd'. rewrite lookup_app_l in Hk' by done.
              apply list_elem_of_lookup_2 in Hk'.
              specialize (Hmin depot' d' Hk' Hd'). lia.
        -- apply Hkeep. exists k, old. split; [|done].
           split; [by apply lookup_app_l_Some|]. split; [done|]. split.
           ++ intros depot' d' [Hin|Heq%list_elem_of_singleton]%elem_of_app Hd'.
              ** by apply (Hmin depot').
              ** subst. rewrite Hx in Hd'. injection Hd' as <-. lia.
           ++ intros k' depot' d' Hlt Hk'. apply (Hfirst k'); [done|].
              apply lookup_lt_Some in Hk. by rewrite lookup_app_l in Hk' by lia.
      * apply Hkeep. exists k, old. split; [|done].
        split; [by apply lookup_app_l_Some|]. split; [done|]. split.
        -- intros depot' d' [Hin|Heq%list_elem_of_singleton]%elem_of_app Hd'.
           ++ by apply (Hmin depot').
           ++ subst. by rewrite Hx in Hd'.
        -- intros k' depot' d' Hlt Hk'. apply (Hfirst k'); [done|].
           apply lookup_lt_Some in Hk. by rewrite lookup_app_l in Hk' by lia.
      * apply Hkeep. exists k, old. split; [|done].
        split; [by apply lookup_app_l_Some|]. split; [done|]. split.
        -- intros depot' d' [Hin|Heq%list_elem_of_singleton]%elem_of_app Hd'.
           ++ by apply (Hmin depot').
           ++ subst. by rewrite Hx in Hd'.
        -- intros k' depot' d' Hlt Hk'. apply (Hfirst k'); [done|].
           apply lookup_lt_Some in Hk. by rewrite lookup_app_l in Hk' by lia.
    + destruct Hinv as [-> Hnone].
      destruct (dist depot location) as [x| |] eqn:Hx; simpl.
      * apply (IH (seen ++ [depot]) _ (Finite x)).
        exists (length seen), depot. split; [|done].
        split; [by apply list_lookup_middle|]. split; [done|]. split.
        -- intros depot' d' [Hin|Heq%list_elem_of_singleton]%elem_of_app Hd'.
           ++ by destruct (Hnone depot' d' Hin).
           ++ subst. rewrite Hx in Hd'. injection Hd' as <-. lia.
        -- intros k' depot' d' Hlt Hk' Hd'. rewrite lookup_app_l in Hk' by done.
           apply list_elem_of_lookup_2 in Hk'. by destruct (Hnone depot' d' Hk').
      * apply (IH (seen ++ [depot]) _ Infinity). split; [done|].
        intros depot' d' [Hin|Heq%list_elem_of_singleton]%elem_of_app;
          [by apply Hnone|]. subst. by rewrite Hx.
      * apply (IH (seen ++ [depot]) _ Infinity). split; [done|].
        intros depot' d' [Hin|Heq%list_elem_of_singleton]%elem_of_app;
          [by apply Hnone|]. subst. by rewrite Hx.
Qed.

Lemma getNearestDepot_or_NaN_spec (dist : Coordinate -> Coordinate -> Number)
    (depotList : list Vehicle) (location : Coordinate) :
  match WithNaN.getNearestDepot dist depotList location with
  | None => forall (depot : Vehicle) d,
      depot ∈ depotList -> dist depot location <> Finite d
  | Some key => exists k depot d,
      WithNaN.isNearest dist depotList location k depot d /\ key = vehicle_id depot
  end.
Proof.
  apply (getNearestDepot_loop_spec dist depotList [] location None Infinity).
  split; [done|]. by intros depot d ?%elem_of_nil.
Qed.

Lemma getNearestDepot_spec (depotList : list Vehicle) (location : Coordinate) :
  match getNearestDepot distance depotList location with
  | None => depotList = []
  | Some key => exists k depot,
      isNearest distance depotList location k depot /\ key = vehicle_id depot
  end.
Proof.
  pose proof (getNearestDepot_or_NaN_spec (finiteDistance distance)
                depotList location) as Hspec.
  unfold getNearestDepot.
  destruct (WithNaN.getNearestDepot (finiteDistance distance) depotList location)
    as [key|].
  - destruct Hspec as (k & depot & d & (Hk & Hd & Hmin & Hfirst) & ->).
    injection Hd as <-. exists k, depot. split; [|done].
    split; [done|]. split.
    + intros depot' Hin. by apply (Hmin depot').
    + intros k' depot' Hlt Hk'. by apply (Hfirst k' depot').
  - destruct depotList as [|depot rest]; [done|].
    by destruct (Hspec depot (distance depot location) (list_elem_of_here _ _)).
Qed.

Lemma addVendor_eq depotList orderList
    (acc : gmap Z (list (VendorOrderCluster IDType))) vendorNode :
  addVendor distance depotList orderList acc vendorNode =
  match getNearestDepot distance depotList vendorNode with
  | Some nearestDepotId =>
      <[nearestDepotId :=
          default [] (acc !! nearestDepotId) ++ [clusterOf orderList vendorNode]]> acc
  | None => acc
  end.
Proof. reflexivity. Qed.

Lemma formDepotClusters_eq depotList (vendorList orderList : list (NodeV IDType)) :
  formDepotClusters distance depotList vendorList orderList =
  foldl (addVendor distance depotList orderList) ∅ vendorList.
Proof. reflexivity. Qed.

Lemma addVendor_keeps depotList orderList
    (acc : gmap Z (list (VendorOrderCluster IDType))) vendorNode key cs cluster :
  acc !! key = Some cs -> cluster ∈ cs ->
  exists cs', addVendor distance depotList orderList acc vendorNode !! key = Some cs' /\
              cluster ∈ cs'.
Proof.
  intros Hkey Hin. rewrite addVendor_eq.
  destruct (getNearestDepot distance depotList vendorNode) as [nearest|]; [|by exists cs].
  rewrite lookup_insert. case_decide as Heq; [|by exists cs].
  subst. rewrite Hkey. simpl. eexists. split; [done|].
  apply elem_of_app. by left.
Qed.

Lemma formDepotClusters_keeps depotList orderList vendors
    (acc : gmap Z (list (VendorOrderCluster IDType))) key cs cluster :
  acc !! key = Some cs -> cluster ∈ cs ->
  exists cs', foldl (addVendor distance depotList orderList) acc vendors !! key
              = Some cs' /\ cluster ∈ cs'.
Proof.
  revert acc cs. induction vendors as [|vendorNode vendors IH]; intros acc cs Hkey Hin.
  - by exists cs.
  - simpl.
    destruct (addVendor_keeps depotList orderList acc vendorNode key cs cluster)
      as (cs' & ? & ?); [done..|].
    by apply (IH _ cs').
Qed.

Lemma formDepotClusters_has depotList orderList vendors
    (acc : gmap Z (list (VendorOrderCluster IDType))) vendorNode key :
  vendorNode ∈ vendors ->
  getNearestDepot distance depotList vendorNode = Some key ->
  exists cs, foldl (addVendor distance depotList orderList) acc vendors !! key
             = Some cs /\ clusterOf orderList vendorNode ∈ cs.
Proof.
  revert acc. induction vendors as [|v vendors IH]; intros acc Hin Hnear.
  - by apply elem_of_nil in Hin.
  - simpl. apply elem_of_cons in Hin as [<-|Hin]; [|by apply IH].
    eapply formDepotClusters_keeps.
    + rewrite addVendor_eq, Hnear. by rewrite lookup_insert_eq.
    + apply elem_of_app. right. left.
Qed.

Lemma formDepotClusters_only depotList orderList vendors
    (acc : gmap Z (list (VendorOrderCluster IDType))) key cs cluster :
  foldl (addVendor distance depotList orderList) acc vendors !! key = Some cs ->
  cluster ∈ cs ->
  (exists cs0, acc !! key = Some cs0 /\ cluster ∈ cs0) \/
  (exists vendorNode, vendorNode ∈ vendors /\ cluster = clusterOf orderList vendorNode /\
                   getNearestDepot distance depotList vendorNode = Some key).
Proof.
  revert acc. induction vendors as [|v vendors IH]; intros acc Hkey Hin.
  - left. by exists cs.
  - simpl in Hkey. destruct (IH _ Hkey Hin) as [(cs0 & Hcs0 & Hin0)|(v' & ? & ? & ?)].
    + rewrite addVendor_eq in Hcs0.
      destruct (getNearestDepot distance depotList v) as [nearest|] eqn:Hnear;
        [|left; by exists cs0].
      rewrite lookup_insert in Hcs0. case_decide as Heq; [|left; by exists cs0].
      injection Hcs0 as <-. subst nearest.
      apply elem_of_app in Hin0 as [Hold|Heq%list_elem_of_singleton].
      * left. destruct (acc !! key) as [cs1|]; [by exists cs1|].
        by apply elem_of_nil in Hold.
      * right. exists v. split; [left | by subst].
    + right. exists v'. split; [by right | done].
Qed.

(** On distances that are all numbers: with a non-empty depot list, every
    vendor of the vendor list has its cluster (the vendor with exactly the orders whose vendorId is its
    id) stored under the id of a depot that is nearest to it: no depot of
    the list is strictly closer, and every depot earlier in the list is
    strictly farther, so ties go to the first.  Every stored cluster is such
    a cluster, stored under such a depot.  With an empty depot list the
    mapping is empty. *)
Lemma vendors_clustered_on_numbers (depotList : list Vehicle)
    (vendorList orderList : list (NodeV IDType)) :
  let depotClusters := formDepotClusters distance depotList vendorList orderList in
  (depotList = [] -> depotClusters = ∅) /\
  (forall vendorNode,
      vendorNode ∈ vendorList -> depotList <> [] ->
      exists k depot cs,
        depotList !! k = Some depot /\
        (forall depot', depot' ∈ depotList ->
                        (distance depot vendorNode <= distance depot' vendorNode)%Z) /\
        (forall k' depot', k' < k -> depotList !! k' = Some depot' ->
                           (distance depot vendorNode < distance depot' vendorNode)%Z) /\
        depotClusters !! vehicle_id depot = Some cs /\
        {| vendor := vendorNode;
           orders := List.filter
                       (fun order => bool_decide (vendorId order = Some (id vendorNode)))
                       orderList |} ∈ cs) /\
  (forall key cs cluster,
      depotClusters !! key = Some cs -> cluster ∈ cs ->
      vendor cluster ∈ vendorList /\
      (forall order, order ∈ orders cluster <->
                     order ∈ orderList /\ vendorId order = Some (id (vendor cluster))) /\
      exists k depot,
        isNearest distance depotList (vendor cluster) k depot /\
        key = vehicle_id depot).
Proof.
  intros depotClusters. unfold depotClusters, formDepotClusters. split; [|split].
  - intros ->. apply (foldl_preserves (fun m => m = ∅)); [done|].
    intros m vendorNode _ ->. done.
  - intros vendorNode Hin Hnonempty.
    pose proof (getNearestDepot_spec depotList vendorNode) as Hspec.
    destruct (getNearestDepot distance depotList vendorNode) as [key|] eqn:Hnear;
      [|done].
    destruct Hspec as (k & depot & (Hk & Hmin & Hfirst) & ->).
    destruct (formDepotClusters_has depotList orderList vendorList ∅ vendorNode _
                Hin Hnear) as (cs & Hcs & Hcluster).
    by exists k, depot, cs.
  - intros key cs cluster Hkey Hin.
    apply (formDepotClusters_only _ _ _ _ _ _ _ Hkey) in Hin
      as [(cs0 & Hcs0 & _)|(vendorNode & Hvendor & -> & Hnear)];
      [by rewrite lookup_empty in Hcs0|].
    split; [done|]. split.
    + intros order. simpl. rewrite list_elem_of_In, filter_In, <- list_elem_of_In.
      by rewrite bool_decide_eq_true.
    + pose proof (getNearestDepot_spec depotList vendorNode) as Hspec.
      by rewrite Hnear in Hspec.
Qed.

(** C9.  A vendor from which every depot of the list is at a NaN distance
    gets no depot although the depot list is not empty: getNearestDepot
    returns null for it, and formDepotClusters leaves it out, so that the
    mapping is the one built from the vendor list without it. *)
Theorem vendor_at_NaN_distance_dropped (dist : Coordinate -> Coordinate -> Number)
    (depotList : list Vehicle) (before after orderList : list (NodeV IDType))
    vendorNode :
  depotList <> [] ->
  (forall depot : Vehicle, depot ∈ depotList -> dist depot vendorNode = NaN) ->
  WithNaN.getNearestDepot dist depotList vendorNode = None /\
  WithNaN.formDepotClusters dist depotList (before ++ vendorNode :: after) orderList =
  WithNaN.formDepotClusters dist depotList (before ++ after) orderList.
Proof.
  intros _ HNaN.
  assert (WithNaN.getNearestDepot dist depotList vendorNode = None) as Hnull.
  { pose proof (getNearestDepot_or_NaN_spec dist depotList vendorNode) as Hspec.
    destruct (WithNaN.getNearestDepot dist depotList vendorNode) as [key|]; [|done].
    destruct Hspec as (k & depot & d & (Hk & Hd & _) & _).
    apply list_elem_of_lookup_2 in Hk. by rewrite (HNaN depot Hk) in Hd. }
  split; [done|]. unfold WithNaN.formDepotClusters.
  rewrite !foldl_app. simpl. unfold WithNaN.addVendor at 2. by rewrite Hnull.
Qed.

End Properties.

(** ** Runs on concrete inputs *)

(** One vendor and three orders: three savings, none with the vendor, in
    production order before the ranking. *)
Example calculateSavings_on_a_cluster :
  calculateSavings arcDistance depot0
    [vendorAt "V" 0 (-2); orderAt "A" 1 3; orderAt "B" 2 4; orderAt "C" (-1) 5] =
  [{| i := "A"; j := "B"; saving := 2 |};
   {| i := "A"; j := "C"; saving := 0 |};
   {| i := "B"; j := "C"; saving := 0 |}].
Proof. reflexivity. Qed.

(** C1.  On [overloadedNodes] (capacity 10, four orders of demand 3) the
    savings loop pairs A with B and C with D, then concatenates the two
    routes on the saving (A, D).  The capacity of the result is computed from
    the capacity of [C; D] and the demand of A alone, so the returned route
    carries a load of 12 while its capacityUsed says 1 is left. *)
Theorem merged_route_exceeds_capacity :
  let route := {| nodes := ["C"; "D"; "A"; "B"];
                  capacityUsed := 1;
                  vehicleCapacity := 10 |} in
  clarkWright arcDistance depot0 overloadedNodes = [route] /\
  routeLoad overloadedNodes route = 12%Z /\
  capacityOf depot0 = 10%Z.
Proof. repeat split; vm_compute; reflexivity. Qed.

(** C2.  On [duplicatingNodes] the saving (A, D) concatenates [C; D] in front
    of [A; B]; only A, which the surviving route already had, is registered
    again, so C and D still point at the absorbed route object (reference 1),
    which is no longer in the array.  The later saving (B, C) then
    concatenates that absorbed object once more: C and D appear twice in the
    returned route, and since [indexOf] finds nothing, [splice(-1, 1)] drops
    the route [E; F] from the array instead. *)
Theorem concatenation_duplicates_nodes :
  let st := stateAfter duplicatingNodes 9 in
  returned st =
    [{| nodes := ["C"; "D"; "A"; "B"]; capacityUsed := 2; vehicleCapacity := 10 |};
     {| nodes := ["E"; "F"]; capacityUsed := 0; vehicleCapacity := 10 |}] /\
  routes st = [0; 2] /\
  nodeToRoute st !! "C" = Some 1 /\
  nodeToRoute st !! "D" = Some 1 /\
  clarkWright arcDistance depot0 duplicatingNodes =
    [{| nodes := ["C"; "D"; "A"; "B"; "C"; "D"];
        capacityUsed := 0;
        vehicleCapacity := 10 |}].
Proof. repeat split; vm_compute; reflexivity. Qed.

(** C3.  On [colocatedNodes] the first two savings build the route
    [C; A; B].  The third saving is (A, D): A has a route, D has none, and A
    is neither the first nor the last node of its route.  The code still
    attaches D, at the end, and later E the same way. *)
Theorem interior_anchor_still_attaches :
  let st := stateAfter colocatedNodes 2 in
  let s := {| i := "A"; j := "D"; saving := 0 |} in
  rankedSavings arcDistance depot0 colocatedNodes !! 2 = Some s /\
  returned st =
    [{| nodes := ["C"; "A"; "B"]; capacityUsed := 7; vehicleCapacity := 10 |}] /\
  nodeToRoute st !! "A" = Some 0 /\
  nodeToRoute st !! "D" = None /\
  returned (processSaving depot0 colocatedNodes st s) =
    [{| nodes := ["C"; "A"; "B"; "D"]; capacityUsed := 6; vehicleCapacity := 10 |}] /\
  clarkWright arcDistance depot0 colocatedNodes =
    [{| nodes := ["C"; "A"; "B"; "D"; "E"];
        capacityUsed := 5;
        vehicleCapacity := 10 |}].
Proof. repeat split; vm_compute; reflexivity. Qed.

(** C4 as stated fails.  On [guardedNodes], after four savings the routes
    are [A; B] and [C; D], both with capacityUsed 4.  The next saving is
    (B, C): B is the last node of its route, C the first of the other, and
    the capacity of that orientation, 4 - demand(C) = 3, is not negative.
    The saving is skipped all the same, because the capacity of the other
    orientation, 4 - demand(B) = -1, is negative.

    On [returnNodes], after three savings the routes are [A; B] with
    capacityUsed 6 and [C; D] with capacityUsed 5.  The next saving is
    (A, D): A is the first node of its route and D the last of the other,
    and the capacity of that orientation, 5 - demand(A) = 3, is not
    negative; nor would the route [C; D; A; B] be over capacity, with a load
    of 9 on 10.  The saving is skipped, because the capacity of the other
    orientation, 6 - demand(D) = -2, is negative.  (The routes are joined
    the other way round on the next saving, (B, C).) *)
Lemma matching_orientation_skipped :
  (let st := stateAfter guardedNodes 4 in
   let s := {| i := "B"; j := "C"; saving := 0 |} in
   let route_i := {| nodes := ["A"; "B"]; capacityUsed := 4; vehicleCapacity := 10 |} in
   let route_j := {| nodes := ["C"; "D"]; capacityUsed := 4; vehicleCapacity := 10 |} in
   rankedSavings arcDistance depot0 guardedNodes !! 4 = Some s /\
   nodeToRoute st !! "B" = Some 0 /\ heap st !! 0 = Some route_i /\
   nodeToRoute st !! "C" = Some 1 /\ heap st !! 1 = Some route_j /\
   last (nodes route_i) = Some "B" /\ head (nodes route_j) = Some "C" /\
   (0 <= capacityUsed route_i - demandEffect (orderAt "C" (-1) 1))%Z /\
   processSaving depot0 guardedNodes st s = st /\
   clarkWright arcDistance depot0 guardedNodes = [route_i; route_j]) /\
  (let st := stateAfter returnNodes 3 in
   let s := {| i := "A"; j := "D"; saving := 0 |} in
   let route_i := {| nodes := ["A"; "B"]; capacityUsed := 6; vehicleCapacity := 10 |} in
   let route_j := {| nodes := ["C"; "D"]; capacityUsed := 5; vehicleCapacity := 10 |} in
   rankedSavings arcDistance depot0 returnNodes !! 3 = Some s /\
   nodeToRoute st !! "A" = Some 0 /\ heap st !! 0 = Some route_i /\
   nodeToRoute st !! "D" = Some 1 /\ heap st !! 1 = Some route_j /\
   head (nodes route_i) = Some "A" /\ last (nodes route_j) = Some "D" /\
   (0 <= capacityUsed route_j - demandEffect (orderAt "A" 2 2))%Z /\
   (routeLoad returnNodes route_i + routeLoad returnNodes route_j
    <= capacityOf depot0)%Z /\
   processSaving depot0 returnNodes st s = st).
Proof. repeat split; vm_compute; try reflexivity; discriminate. Qed.

(** C8 as stated fails.  Order B, of demand 11, fits no vehicle of capacity
    10.  clarkWright returns the same list with B in the input as without
    it: nothing tells the caller that B was left out. *)
Lemma oversize_node_not_reported :
  fits depot0 (orderAt "B" 0 11) = false /\
  clarkWright arcDistance depot0 [orderAt "A" 0 3; orderAt "B" 0 11] =
    [{| nodes := ["A"]; capacityUsed := 7; vehicleCapacity := 10 |}] /\
  clarkWright arcDistance depot0 [orderAt "A" 0 3; orderAt "B" 0 11] =
  clarkWright arcDistance depot0 [orderAt "A" 0 3].
Proof. repeat split; vm_compute; reflexivity. Qed.

(** *** The theorems at concrete inputs *)

(** The concatenation rule on [mergingNodes]: after three savings the routes
    are [A; B] and [C; D]; the saving (A, D) finds A first and D last, both
    capacities are 8, and [C; D] goes in front of [A; B]. *)
Lemma concatenation_on_mergingNodes :
  let st := stateAfter mergingNodes 3 in
  let s := {| i := "A"; j := "D"; saving := 0 |} in
  nodeToRoute st !! "A" = Some 0 /\
  nodeToRoute st !! "D" = Some 1 /\
  nodes <$> heap (processSaving depot0 mergingNodes st s) !! 0 =
    Some ["C"; "D"; "A"; "B"].
Proof.
  intros st s.
  assert (Hi : nodeToRoute st !! i s = Some 0) by (vm_compute; reflexivity).
  assert (Hj : nodeToRoute st !! j s = Some 1) by (vm_compute; reflexivity).
  split; [exact Hi|]. split; [exact Hj|].
  refine (proj1 (proj2 (concatenation_needs_both_capacities
    depot0 mergingNodes st s 0 1
    {| nodes := ["A"; "B"]; capacityUsed := 9; vehicleCapacity := 10 |}
    {| nodes := ["C"; "D"]; capacityUsed := 9; vehicleCapacity := 10 |}
    (orderAt "A" 2 1) (orderAt "D" (-1) 1) _ _ Hi Hj _ _ _)) _ _ _).
  - vm_compute; reflexivity.
  - vm_compute; reflexivity.
  - discriminate.
  - vm_compute; reflexivity.
  - vm_compute; reflexivity.
  - split; vm_compute; discriminate.
  - intros [Hlast _]. vm_compute in Hlast. discriminate.
  - split; vm_compute; reflexivity.
Defined.

(** Rejection on [guardedNodes]: the saving (B, C) is rejected after four
    savings, and every returned route has a non-negative capacityUsed. *)
Lemma rejection_on_guardedNodes :
  let st := stateAfter guardedNodes 4 in
  let s := {| i := "B"; j := "C"; saving := 0 |} in
  rejected depot0 st s (orderAt "B" 2 5) (orderAt "C" (-1) 1) /\
  processSaving depot0 guardedNodes st s = st /\
  (forall route, route ∈ clarkWright arcDistance depot0 guardedNodes ->
                 (0 <= capacityUsed route)%Z).
Proof.
  intros st s.
  destruct (capacityUsed_never_negative arcDistance depot0 guardedNodes)
    as (_ & _ & Hreturned & Hrejected).
  assert (Hrej : rejected depot0 st s (orderAt "B" 2 5) (orderAt "C" (-1) 1)).
  { exists {| nodes := ["A"; "B"]; capacityUsed := 4; vehicleCapacity := 10 |},
           {| nodes := ["C"; "D"]; capacityUsed := 4; vehicleCapacity := 10 |}.
    split; [vm_compute; reflexivity|]. split; [vm_compute; reflexivity|].
    right. vm_compute. reflexivity. }
  split; [exact Hrej|]. split; [|exact Hreturned].
  apply (Hrejected st s (orderAt "B" 2 5) (orderAt "C" (-1) 1));
    [vm_compute; reflexivity | vm_compute; reflexivity | exact Hrej].
Defined.

(** The fallback loop on [mixedNodes]: the vendor V (demand -2) gets the
    route [V] with capacityUsed 10 + (-2) = 8. *)
Lemma fallback_on_mixedNodes :
  nodeToRoute (fallbackLoop depot0 [] (afterSavings arcDistance depot0 mixedNodes))
    !! "V" = None /\
  (Z.abs (-2) <= capacityOf depot0)%Z /\
  {| nodes := ["V"]; capacityUsed := 8; vehicleCapacity := 10 |}
    ∈ clarkWright arcDistance depot0 mixedNodes.
Proof.
  assert (Hnone : nodeToRoute (fallbackLoop depot0 []
            (afterSavings arcDistance depot0 mixedNodes)) !! "V" = None)
    by (vm_compute; reflexivity).
  assert (Hfits : (Z.abs (-2) <= capacityOf depot0)%Z)
    by (vm_compute; discriminate).
  split; [exact Hnone|]. split; [exact Hfits|].
  exact (proj2 (proj1 (proj2 (fallback_route_exactly_when_fits arcDistance depot0
    [] [orderAt "A" 0 3; orderAt "B" 0 11] (vendorAt "V" 0 (-2)))) Hnone Hfits)).
Defined.

(** The order B of [mixedNodes] (demand 11) is in no returned route. *)
Lemma oversize_order_of_mixedNodes_absent :
  orderAt "B" 0 11 ∈ mixedNodes /\
  NoDup (id <$> mixedNodes) /\
  nodeToRoute (afterSavings arcDistance depot0 mixedNodes) !! "B" = None /\
  fits depot0 (orderAt "B" 0 11) = false /\
  (forall route, route ∈ clarkWright arcDistance depot0 mixedNodes ->
                 "B" ∉ nodes route).
Proof.
  assert (Hin : orderAt "B" 0 11 ∈ mixedNodes).
  { right. right. left. }
  assert (Hnodup : NoDup (id <$> mixedNodes)).
  { refine (bool_decide_unpack (NoDup (id <$> mixedNodes)) _).
    vm_compute. exact I. }
  assert (Hnone : nodeToRoute (afterSavings arcDistance depot0 mixedNodes)
                    !! "B" = None) by (vm_compute; reflexivity).
  assert (Hfits : fits depot0 (orderAt "B" 0 11) = false)
    by (vm_compute; reflexivity).
  repeat (split; [assumption|]).
  exact (unroutable_node_silently_absent arcDistance depot0 mixedNodes
           (orderAt "B" 0 11) Hin Hnodup Hnone Hfits).
Defined.

(** Clustering with two depots: the vendor V, one degree north of [depot0]
    and nine south of [depotFar], goes to [depot0] with its one order. *)
Lemma clustering_two_depots :
  let vendorV := vendorAt "V" 1 (-2) in
  let orderList := [orderOf "O1" "V" 2 2; orderOf "O2" "W" 2 2; orderAt "O3" 2 2] in
  vendorV ∈ [vendorV] /\
  [depot0; depotFar] <> [] /\
  exists k (depot : Vehicle) cs,
    [depot0; depotFar] !! k = Some depot /\
    (forall depot' : Vehicle, depot' ∈ [depot0; depotFar] ->
                    (arcDistance depot vendorV <= arcDistance depot' vendorV)%Z) /\
    (forall k' (depot' : Vehicle), k' < k -> [depot0; depotFar] !! k' = Some depot' ->
                       (arcDistance depot vendorV < arcDistance depot' vendorV)%Z) /\
    formDepotClusters arcDistance [depot0; depotFar] [vendorV] orderList
      !! vehicle_id depot = Some cs /\
    {| vendor := vendorV;
       orders := List.filter
                   (fun order => bool_decide (vendorId order = Some (id vendorV)))
                   orderList |} ∈ cs.
Proof.
  intros vendorV orderList.
  assert (Hin : vendorV ∈ [vendorV]) by left.
  assert (Hne : [depot0; depotFar] <> []) by discriminate.
  split; [exact Hin|]. split; [exact Hne|].
  exact (proj1 (proj2 (vendors_clustered_on_numbers arcDistance
    [depot0; depotFar] [vendorV] orderList)) vendorV Hin Hne).
Defined.

(** The vendor at the antipode of the one depot: its distance is NaN, it
    gets no depot, and the mapping is empty. *)
Lemma antipodal_vendor_dropped :
  [depotNorth] <> [] /\
  (forall depot : Vehicle,
      depot ∈ [depotNorth] -> arcDistanceOrNaN depot antipodalVendor = NaN) /\
  WithNaN.getNearestDepot arcDistanceOrNaN [depotNorth] antipodalVendor = None /\
  WithNaN.formDepotClusters arcDistanceOrNaN [depotNorth] [antipodalVendor]
    [orderOf "O1" "V" 2 2] = ∅.
Proof.
  assert (Hne : [depotNorth] <> []) by discriminate.
  assert (HNaN : forall depot : Vehicle,
            depot ∈ [depotNorth] -> arcDistanceOrNaN depot antipodalVendor = NaN).
  { intros depot Hdepot. apply list_elem_of_singleton in Hdepot. subst depot.
    reflexivity. }
  split; [exact Hne|]. split; [exact HNaN|].
  exact (vendor_at_NaN_distance_dropped arcDistanceOrNaN [depotNorth] [] []
           [orderOf "O1" "V" 2 2] antipodalVendor Hne HNaN).
Defined.

(** The vendor of [mixedNodes] is returned alone. *)
Lemma vendor_of_mixedNodes_alone :
  let route := {| nodes := ["V"]; capacityUsed := 8; vehicleCapacity := 10 |} in
  NoDup (id <$> mixedNodes) /\
  vendorAt "V" 0 (-2) ∈ mixedNodes /\
  route ∈ clarkWright arcDistance depot0 mixedNodes /\
  route = {| nodes := [id (vendorAt "V" 0 (-2))];
             capacityUsed := (capacityOf depot0 + demand (vendorAt "V" 0 (-2)))%Z;
             vehicleCapacity := capacityOf depot0 |}.
Proof.
  intros route.
  assert (Hnodup : NoDup (id <$> mixedNodes)).
  { refine (bool_decide_unpack (NoDup (id <$> mixedNodes)) _).
    vm_compute. exact I. }
  assert (Hin : vendorAt "V" 0 (-2) ∈ mixedNodes) by left.
  assert (Hroute : route ∈ clarkWright arcDistance depot0 mixedNodes).
  { vm_compute. left. }
  repeat (split; [assumption|]).
  apply (proj1 (vendor_routed_alone arcDistance) depot0 mixedNodes
           (vendorAt "V" 0 (-2)) route Hnodup Hin eq_refl Hroute).
  left.
Defined.


(** ** Further properties of the code *)

Section Further.
Context {IDType : Type} `{Countable IDType}.
Variable distance : Coordinate -> Coordinate -> Z.

Implicit Types (depot : Vehicle) (nodeList : list (NodeV IDType)).
Implicit Types (st : State IDType) (s : Saving IDType) (x y : IDType).
Implicit Types (route route_i route_j : Route IDType).
Implicit Types (node node_i node_j vendorNode : NodeV IDType).

(** *** The size of the savings list *)

Lemma length_calculateSavings_row depot node_i (rest : list (NodeV IDType)) :
  length (calculateSavings_row distance depot node_i rest) =
  if bool_decide (type node_i = ORDER) then countOrders rest else 0.
Proof.
  unfold countOrders. induction rest as [|node_j rest IH]; simpl.
  - by case_bool_decide.
  - rewrite length_app, IH, filter_cons.
    destruct (decide (type node_j = ORDER)) as [Hj|Hj].
    + rewrite (bool_decide_eq_true_2 _ Hj). by case_bool_decide.
    + rewrite (bool_decide_eq_false_2 _ Hj), andb_false_r. by case_bool_decide.
Qed.

Lemma length_calculateSavings depot nodeList :
  2 * length (calculateSavings distance depot nodeList) =
  countOrders nodeList * (countOrders nodeList - 1).
Proof.
  induction nodeList as [|node rest IH]; [done|]. simpl.
  rewrite length_app, length_calculateSavings_row.
  unfold countOrders in *. rewrite filter_cons.
  case_bool_decide as Hnode.
  - rewrite decide_True by done. simpl. nia.
  - rewrite decide_False by done. simpl. lia.
Qed.

(** X1.  With [k] ORDER nodes in the list, calculateSavings produces
    k (k - 1) / 2 records, whatever the VENDOR nodes and the positions. *)
Theorem calculateSavings_count depot nodeList :
  2 * length (calculateSavings distance depot nodeList) =
  countOrders nodeList * (countOrders nodeList - 1).
Proof. apply length_calculateSavings. Qed.

Lemma findNode_is_Some nodeList node :
  node ∈ nodeList -> is_Some (findNode nodeList (id node)).
Proof.
  unfold findNode. induction nodeList as [|node' rest IH]; [by intros ?%elem_of_nil|].
  intros [->|Hin]%elem_of_cons; simpl.
  - rewrite bool_decide_eq_true_2 by done. by eexists.
  - case_bool_decide; [by eexists | by apply IH].
Qed.

Lemma findNode_elem_of nodeList x node :
  findNode nodeList x = Some node -> node ∈ nodeList /\ id node = x.
Proof.
  unfold findNode. intros [Hin Hid]%find_some.
  split; [by apply list_elem_of_In | by apply bool_decide_eq_true in Hid].
Qed.

(** X3.  The guard [if (!node_i || !node_j) continue] of the savings loop
    never fires: both identifiers of every ranked saving are found in the
    node list, and what is found is an ORDER node or shares its identifier
    with one. *)
Theorem saving_nodes_always_found depot nodeList s :
  s ∈ rankedSavings distance depot nodeList ->
  exists node_i node_j,
    findNode nodeList (i s) = Some node_i /\
    findNode nodeList (j s) = Some node_j /\
    node_i ∈ nodeList /\ node_j ∈ nodeList /\
    isOrderId nodeList (id node_i) /\ isOrderId nodeList (id node_j).
Proof.
  intros [Hi Hj]%rankedSavings_orders.
  destruct Hi as (n_i & Hin_i & Hid_i & Hord_i).
  destruct Hj as (n_j & Hin_j & Hid_j & Hord_j).
  destruct (findNode_is_Some nodeList n_i Hin_i) as [node_i Hfi].
  destruct (findNode_is_Some nodeList n_j Hin_j) as [node_j Hfj].
  rewrite Hid_i in Hfi. rewrite Hid_j in Hfj.
  destruct (findNode_elem_of _ _ _ Hfi) as [? Hi'].
  destruct (findNode_elem_of _ _ _ Hfj) as [? Hj'].
  exists node_i, node_j. repeat split; try done.
  - exists n_i. by rewrite Hi'.
  - exists n_j. by rewrite Hj'.
Qed.

(** *** Runs without savings *)

Lemma calculateSavings_few_orders depot nodeList :
  countOrders nodeList <= 1 -> calculateSavings distance depot nodeList = [].
Proof.
  intros Hfew. apply length_zero_iff_nil.
  pose proof (length_calculateSavings depot nodeList). nia.
Qed.

Lemma fallback_other_key depot st node x :
  x <> id node -> nodeToRoute st !! x = None ->
  nodeToRoute (fallback depot st node) !! x = None.
Proof.
  intros Hne Hx. unfold fallback. repeat case_match; try done.
  simpl. by rewrite lookup_insert_ne.
Qed.

Lemma fallbackLoop_fresh depot (nodes_ : list (NodeV IDType)) st :
  refsValid st ->
  NoDup (id <$> nodes_) ->
  (forall node, node ∈ nodes_ -> nodeToRoute st !! id node = None) ->
  returned (fallbackLoop depot nodes_ st) =
  returned st ++ (fallbackRoute depot <$> filter (fun node => fits depot node = true) nodes_).
Proof.
  revert st. induction nodes_ as [|node rest IH]; intros st Hvalid Hnodup Hfresh.
  - simpl. by rewrite app_nil_r.
  - rewrite fmap_cons, NoDup_cons in Hnodup. destruct Hnodup as [Hnotin Hnodup].
    unfold fallbackLoop in *. simpl. rewrite IH.
    + rewrite returned_fallback by done.
      rewrite (Hfresh node) by left. rewrite filter_cons.
      destruct (decide (fits depot node = true)) as [Hfits|Hfits].
      * rewrite Hfits. simpl. by rewrite <- app_assoc.
      * apply not_true_is_false in Hfits. rewrite Hfits. by rewrite app_nil_r.
    + by apply refsValid_fallback.
    + done.
    + intros node' Hnode'. apply fallback_other_key; [|apply Hfresh; by right].
      intros Heq. apply Hnotin. rewrite <- Heq. by apply list_elem_of_fmap_2.
Qed.

(** X4.  A node list with at most one ORDER node (so also the empty list,
    and the cluster of a vendor with a single order) gives no saving, and
    with unique identifiers clarkWright then returns the one-node routes of
    the nodes that fit, in the order of the list, and nothing else. *)
Theorem few_orders_all_fallback depot nodeList :
  countOrders nodeList <= 1 ->
  NoDup (id <$> nodeList) ->
  clarkWright distance depot nodeList =
  fallbackRoute depot <$> filter (fun node => fits depot node = true) nodeList.
Proof.
  intros Hfew Hnodup. unfold clarkWright, finalState, afterSavings, rankedSavings.
  rewrite calculateSavings_few_orders by done. simpl.
  rewrite fallbackLoop_fresh; [done|apply refsValid_initial|done|].
  intros node _. apply lookup_empty.
Qed.

(** *** The shape of the returned routes *)

Lemma shapeOk_processSaving depot nodeList st s :
  shapeOk depot st -> shapeOk depot (processSaving depot nodeList st s).
Proof.
  intros Hst. unfold shapeOk in *.
  assert (forall (r : RouteRef) route, heap st !! r = Some route ->
            nodes route <> [] /\ vehicleCapacity route = capacityOf depot) as Hat.
  { intros r route Hr. by apply (Forall_lookup_1 _ _ _ _ Hst Hr). }
  unfold processSaving, pairUp, attach, concatenate.
  repeat case_match; try done; simpl;
    try (apply Forall_app; split; [done|]; by repeat constructor);
    (apply Forall_insert; [done|]; simpl;
     repeat match goal with
            | Hr : heap st !! _ = Some _ |- _ => apply Hat in Hr; destruct Hr
            end;
     split; [|done]; try done;
     try (intros [? _]%app_eq_nil; done);
     intros Hnil; by apply app_eq_nil in Hnil as [? ?]).
Qed.

Lemma shapeOk_fallback depot st node :
  shapeOk depot st -> shapeOk depot (fallback depot st node).
Proof.
  intros Hst. unfold fallback. repeat case_match; try done.
  apply Forall_app. split; [done|]. by repeat constructor.
Qed.

Lemma finalState_shape depot nodeList :
  shapeOk depot (finalState distance depot nodeList).
Proof.
  unfold finalState, fallbackLoop, afterSavings, savingsLoop.
  apply foldl_preserves; [|intros; by apply shapeOk_fallback].
  apply foldl_preserves; [constructor|intros; by apply shapeOk_processSaving].
Qed.

Lemma finalState_wf depot nodeList :
  let st := finalState distance depot nodeList in
  refsValid st /\ registered st /\
  keysIn (fun x => exists node, node ∈ nodeList /\ id node = x) st.
Proof.
  destruct (afterSavings_wf distance depot nodeList) as (Hvalid & Hreg & Hkeys).
  unfold finalState, fallbackLoop.
  apply (foldl_preserves (fun st => refsValid st /\ registered st /\
           keysIn (fun x => exists node, node ∈ nodeList /\ id node = x) st)).
  - split; [done|]. split; [done|].
    eapply map_Forall_impl; [exact Hkeys|]. simpl.
    intros x _ (node & ? & ? & _). by exists node.
  - intros st node Hnode (? & ? & ?).
    split; [by apply refsValid_fallback|]. split; [by apply registered_fallback|].
    apply keysIn_fallback; [by exists node | done].
Qed.

Lemma clarkWright_routes_shape depot nodeList route :
  route ∈ clarkWright distance depot nodeList ->
  nodes route <> [] /\
  vehicleCapacity route = capacityOf depot /\
  forall x, x ∈ nodes route -> exists node, node ∈ nodeList /\ id node = x.
Proof.
  intros Hroute%elem_of_returned.
  pose proof (finalState_shape depot nodeList) as Hshape.
  destruct (finalState_wf depot nodeList) as (_ & Hreg & Hkeys).
  unfold shapeOk in Hshape. rewrite Forall_forall in Hshape.
  destruct (Hshape route Hroute) as [Hnodes Hcap].
  split; [done|]. split; [done|]. intros x Hx.
  unfold registered in Hreg. rewrite Forall_forall in Hreg.
  specialize (Hreg route Hroute). rewrite Forall_forall in Hreg.
  destruct (Hreg x Hx) as [r Hr].
  exact (map_Forall_lookup_1 _ _ _ _ Hkeys Hr).
Qed.

(** X5.  Every route clarkWright returns lists at least one node, carries
    the depot's capacity (its own or the default 10) as vehicleCapacity, and
    lists only identifiers of nodes of the input list. *)
Theorem returned_routes_shape depot nodeList route :
  route ∈ clarkWright distance depot nodeList ->
  nodes route <> [] /\
  vehicleCapacity route = capacityOf depot /\
  forall x, x ∈ nodes route -> exists node, node ∈ nodeList /\ id node = x.
Proof. apply clarkWright_routes_shape. Qed.

Lemma belowCapacity_processSaving depot nodeList st s :
  (forall node, node ∈ nodeList -> (0 <= demandEffect node)%Z) ->
  belowCapacity depot st -> belowCapacity depot (processSaving depot nodeList st s).
Proof.
  intros Heff Hst. unfold belowCapacity in *.
  assert (forall (r : RouteRef) route, heap st !! r = Some route ->
            (capacityUsed route <= capacityOf depot)%Z) as Hat.
  { intros r route Hr. by apply (Forall_lookup_1 _ _ _ _ Hst Hr). }
  unfold processSaving.
  destruct (findNode nodeList (i s)) as [node_i|] eqn:Hi; [|done].
  destruct (findNode nodeList (j s)) as [node_j|] eqn:Hj; [|done].
  apply findNode_elem_of in Hi as [Hi%Heff _].
  apply findNode_elem_of in Hj as [Hj%Heff _].
  unfold pairUp, attach, concatenate.
  repeat case_match; try done; simpl;
    try (apply Forall_app; split; [done|]; repeat constructor; simpl; lia);
    (apply Forall_insert; [done|]; simpl;
     repeat match goal with
            | Hr : heap st !! _ = Some _ |- _ => apply Hat in Hr
            end; lia).
Qed.

Lemma belowCapacity_fallback depot st node :
  (0 <= demandEffect node)%Z ->
  belowCapacity depot st -> belowCapacity depot (fallback depot st node).
Proof.
  intros Heff Hst. unfold fallback. repeat case_match; try done.
  apply Forall_app. split; [done|]. repeat constructor.
  unfold fallbackRoute, demandEffect in *. simpl. destruct (type node); lia.
Qed.

(** X6.  When no node of the list releases capacity (every ORDER demand is
    non-negative and every VENDOR demand non-positive), no returned route has
    more free capacity than its vehicle holds:
    capacityUsed <= vehicleCapacity. *)
Theorem capacityUsed_at_most_vehicleCapacity depot nodeList :
  (forall node, node ∈ nodeList -> (0 <= demandEffect node)%Z) ->
  forall route, route ∈ clarkWright distance depot nodeList ->
                (capacityUsed route <= vehicleCapacity route)%Z.
Proof.
  intros Heff route Hroute.
  destruct (clarkWright_routes_shape depot nodeList route Hroute) as (_ & -> & _).
  apply elem_of_returned in Hroute.
  assert (belowCapacity depot (finalState distance depot nodeList)) as Hbelow.
  { unfold finalState, fallbackLoop, afterSavings, savingsLoop.
    apply foldl_preserves.
    - apply foldl_preserves; [constructor|].
      intros. by apply belowCapacity_processSaving.
    - intros st node Hnode Hst. apply belowCapacity_fallback; auto. }
  unfold belowCapacity in Hbelow. rewrite Forall_forall in Hbelow. by apply Hbelow.
Qed.

(** *** Runs that never concatenate two routes *)

Lemma savings_prefix_ind (P : State IDType -> Prop) depot nodeList
    (ranked : list (Saving IDType)) :
  P initialState ->
  (forall k s, ranked !! k = Some s ->
     P (savingsLoop depot nodeList (take k ranked) initialState) ->
     P (processSaving depot nodeList
          (savingsLoop depot nodeList (take k ranked) initialState) s)) ->
  P (savingsLoop depot nodeList ranked initialState).
Proof.
  intros Hinit Hstep.
  assert (forall k, k <= length ranked ->
            P (savingsLoop depot nodeList (take k ranked) initialState)) as Hall.
  { induction k as [|k IH]; intros Hk; [done|].
    destruct (lookup_lt_is_Some_2 ranked k) as [s Hs]; [lia|].
    rewrite (take_S_r _ _ _ Hs). unfold savingsLoop. rewrite foldl_snoc.
    apply (Hstep k s Hs). apply IH. lia. }
  rewrite <- (take_ge ranked (length ranked)) by done. by apply Hall.
Qed.

Lemma calculateSavings_distinct depot nodeList s :
  NoDup (id <$> nodeList) ->
  s ∈ calculateSavings distance depot nodeList -> i s <> j s.
Proof.
  induction nodeList as [|node rest IH]; simpl; [by intros _ ?%elem_of_nil|].
  rewrite NoDup_cons. intros [Hnotin Hnodup] [Hs|Hs]%elem_of_app; [|by apply IH].
  apply elem_of_calculateSavings_row in Hs as (_ & node_j & Hj & _ & ->).
  simpl. intros Heq. apply Hnotin. rewrite Heq. by apply list_elem_of_fmap_2.
Qed.

Lemma findNode_NoDup nodeList node :
  NoDup (id <$> nodeList) -> node ∈ nodeList ->
  findNode nodeList (id node) = Some node.
Proof.
  intros Hnodup Hin.
  destruct (findNode_is_Some nodeList node Hin) as [node' Hfound].
  destruct (findNode_elem_of _ _ _ Hfound) as [Hin' Hid].
  by rewrite Hfound, (NoDup_id_inj nodeList node' node).
Qed.

Lemma routeLoad_snoc nodeList (l : list IDType) x (c v : Z) :
  routeLoad nodeList {| nodes := l ++ [x]; capacityUsed := c; vehicleCapacity := v |} =
  (routeLoad nodeList {| nodes := l; capacityUsed := c; vehicleCapacity := v |}
   + from_option demandEffect 0 (findNode nodeList x))%Z.
Proof.
  unfold routeLoad. simpl. induction l as [|y l IH]; simpl; lia.
Qed.

Lemma accounted_grow depot nodeList st route (m : gmap IDType RouteRef)
    (routes' : list RouteRef) :
  capacityUsed route = (capacityOf depot - routeLoad nodeList route)%Z ->
  accounted depot nodeList st ->
  accounted depot nodeList
    {| heap := heap st ++ [route]; routes := routes'; nodeToRoute := m |}.
Proof.
  intros Hroute Hst. apply Forall_app. split; [done|]. by repeat constructor.
Qed.

Lemma accounted_pairUp depot nodeList st s node_i node_j :
  findNode nodeList (i s) = Some node_i ->
  findNode nodeList (j s) = Some node_j ->
  accounted depot nodeList st ->
  accounted depot nodeList (pairUp depot st s node_i node_j).
Proof.
  intros Hi Hj Hst. unfold pairUp. case_match; [|done].
  apply accounted_grow; [|done].
  unfold routeLoad. simpl. rewrite Hi, Hj. simpl. lia.
Qed.

Lemma accounted_attach depot nodeList st (r : RouteRef) route anchor joining node :
  findNode nodeList joining = Some node ->
  heap st !! r = Some route ->
  accounted depot nodeList st ->
  accounted depot nodeList (attach st r route anchor joining node).
Proof.
  intros Hnode Hr Hst. unfold attach. case_match; [|done].
  unfold accounted in *. simpl. apply Forall_insert; [done|]. simpl.
  pose proof (Forall_lookup_1 _ _ _ _ Hst Hr) as Hroute. simpl in Hroute.
  case_bool_decide.
  - unfold routeLoad in *. simpl. rewrite Hnode. simpl. lia.
  - rewrite routeLoad_snoc, Hnode. simpl. unfold routeLoad in *. simpl. lia.
Qed.

Lemma accounted_fallback depot nodeList st node :
  findNode nodeList (id node) = Some node ->
  accounted depot nodeList st ->
  accounted depot nodeList (fallback depot st node).
Proof.
  intros Hnode Hst. unfold fallback. repeat case_match; try done.
  apply accounted_grow; [|done].
  unfold routeLoad, fallbackRoute, demandEffect. simpl. rewrite Hnode. simpl.
  unfold demandEffect. destruct (type node); lia.
Qed.

Lemma indexed_initial : indexed (@initialState IDType _ _).
Proof.
  split; [|split; [|split]]; simpl.
  - intros r route x Hr. by rewrite lookup_nil in Hr.
  - intros x r Hx. by rewrite lookup_empty in Hx.
  - constructor.
  - constructor.
Qed.

Lemma indexed_grow st route (m : gmap IDType RouteRef) :
  refsValid st ->
  NoDup (nodes route) ->
  (forall x, x ∈ nodes route -> nodeToRoute st !! x = None) ->
  (forall x, x ∈ nodes route -> m !! x = Some (length (heap st))) ->
  (forall x, x ∉ nodes route -> m !! x = nodeToRoute st !! x) ->
  indexed st ->
  indexed {| heap := heap st ++ [route];
             routes := routes st ++ [length (heap st)];
             nodeToRoute := m |}.
Proof.
  intros [Hvalid _] Hnodup Hfresh Hnew Hold (HA & HB & HC & HD).
  split; [|split; [|split]]; cbn [nodeToRoute heap routes].
  - intros r route' x [Hr|[Hlen Hr]]%lookup_app_Some Hx.
    + assert (nodeToRoute st !! x = Some r) as Hreg by by eapply HA.
      rewrite Hold; [done|]. intros Hin%Hfresh. congruence.
    + destruct (r - length (heap st)) eqn:Hdiff; simpl in Hr; [|done].
      injection Hr as <-.
      replace r with (length (heap st)) by lia. by apply Hnew.
  - intros x r Hx. destruct (decide (x ∈ nodes route)) as [Hin|Hout].
    + assert (Some r = Some (length (heap st))) as [= ->]
        by (etrans; [symmetry; exact Hx | exact (Hnew x Hin)]).
      split; [apply elem_of_app; right; left|].
      exists route. split; [by apply list_lookup_middle | done].
    + assert (nodeToRoute st !! x = Some r) as Hreg
        by (etrans; [symmetry; exact (Hold x Hout) | exact Hx]).
      destruct (HB x r Hreg) as (Hr & route' & Hroute' & Hin').
      split; [apply elem_of_app; by left|].
      exists route'. split; [by apply lookup_app_l_Some | done].
  - apply Forall_app. split; [done|]. by repeat constructor.
  - apply NoDup_app. split; [done|]. split; [|apply NoDup_singleton].
    intros r Hr ->%list_elem_of_singleton.
    rewrite Forall_forall in Hvalid. specialize (Hvalid _ Hr). simpl in Hvalid. lia.
Qed.

Lemma indexed_pairUp depot st s node_i node_j :
  i s <> j s ->
  nodeToRoute st !! i s = None -> nodeToRoute st !! j s = None ->
  refsValid st -> indexed st -> indexed (pairUp depot st s node_i node_j).
Proof.
  intros Hne Hi Hj Hvalid Hst. unfold pairUp. case_match; [|done].
  apply indexed_grow; simpl; try done.
  - apply NoDup_cons. split; [|apply NoDup_singleton].
    by intros ?%list_elem_of_singleton.
  - intros x [->|[->|[]%elem_of_nil]%elem_of_cons]%elem_of_cons; done.
  - intros x [->|[->|[]%elem_of_nil]%elem_of_cons]%elem_of_cons.
    + by rewrite lookup_insert_ne, lookup_insert_eq by done.
    + by rewrite lookup_insert_eq.
  - intros x Hx. apply not_elem_of_cons in Hx as [Hxi Hx].
    apply not_elem_of_cons in Hx as [Hxj _].
    by rewrite !lookup_insert_ne by done.
Qed.

Lemma indexed_fallback depot st node :
  refsValid st -> indexed st -> indexed (fallback depot st node).
Proof.
  intros Hvalid Hst. unfold fallback.
  destruct (nodeToRoute st !! id node) eqn:Hnode; [done|].
  case_match; [|done].
  apply indexed_grow; simpl; try done.
  - apply NoDup_singleton.
  - by intros x ->%list_elem_of_singleton.
  - intros x ->%list_elem_of_singleton. by rewrite lookup_insert_eq.
  - intros x Hx. apply not_elem_of_cons in Hx as [Hx _].
    by rewrite lookup_insert_ne.
Qed.

Lemma indexed_attach st (r : RouteRef) route anchor joining node :
  heap st !! r = Some route ->
  nodeToRoute st !! anchor = Some r ->
  nodeToRoute st !! joining = None ->
  indexed st -> indexed (attach st r route anchor joining node).
Proof.
  intros Hr Hanchor Hjoining (HA & HB & HC & HD). unfold attach.
  case_match; [|done]. simpl.
  set (nodes' := if bool_decide (head (nodes route) = Some anchor)
                 then joining :: nodes route else nodes route ++ [joining]).
  assert (forall x, x ∈ nodes' <-> x = joining \/ x ∈ nodes route) as Hmem.
  { intros x. unfold nodes'. case_bool_decide.
    - apply elem_of_cons.
    - rewrite elem_of_app, list_elem_of_singleton. tauto. }
  assert (joining ∉ nodes route) as Hnotin.
  { intros Hin. rewrite (HA r route joining Hr Hin) in Hjoining. done. }
  assert (NoDup nodes') as Hnodup.
  { pose proof (Forall_lookup_1 _ _ _ _ HC Hr) as Hroute. simpl in Hroute.
    unfold nodes'. case_bool_decide.
    - by apply NoDup_cons.
    - apply NoDup_app. split; [done|]. split; [|apply NoDup_singleton].
      intros x Hx ->%list_elem_of_singleton. done. }
  assert (r < length (heap st)) as Hlt by by eapply lookup_lt_Some.
  split; [|split; [|split]]; simpl; [| |by apply Forall_insert|done].
  - intros r0 route0 x [(<- & <- & _)|[Hne Hr0]]%list_lookup_insert_Some Hx.
    + simpl in Hx. apply Hmem in Hx as [->|Hx]; [by rewrite lookup_insert_eq|].
      rewrite lookup_insert_ne by (intros <-; done). by eapply HA.
    + assert (nodeToRoute st !! x = Some r0) as Hreg by by eapply HA.
      rewrite lookup_insert_ne; [done|]. intros <-. congruence.
  - intros x r0. destruct (decide (x = joining)) as [->|Hx].
    + rewrite lookup_insert_eq. intros [= <-].
      split; [by apply (HB anchor r)|].
      eexists. split; [by apply list_lookup_insert_eq|]. simpl.
      apply Hmem. by left.
    + rewrite lookup_insert_ne by done. intros Hreg.
      destruct (HB x r0 Hreg) as (Hin & route0 & Hroute0 & Hx0).
      split; [done|]. destruct (decide (r0 = r)) as [->|Hr0].
      * eexists. split; [by apply list_lookup_insert_eq|]. simpl.
        apply Hmem. right. congruence.
      * exists route0. by rewrite list_lookup_insert_ne.
Qed.

Lemma bookkeeping_processSaving depot nodeList st s :
  i s <> j s ->
  (forall r_i r_j : RouteRef,
      nodeToRoute st !! i s = Some r_i -> nodeToRoute st !! j s = Some r_j ->
      r_i = r_j) ->
  refsValid st /\ accounted depot nodeList st /\ indexed st ->
  let st' := processSaving depot nodeList st s in
  refsValid st' /\ accounted depot nodeList st' /\ indexed st'.
Proof.
  intros Hne Hsame (Hvalid & Hacc & Hidx) st'.
  split; [by apply refsValid_processSaving|].
  unfold st', processSaving.
  destruct (findNode nodeList (i s)) as [node_i|] eqn:Hi; [|done].
  destruct (findNode nodeList (j s)) as [node_j|] eqn:Hj; [|done].
  destruct (nodeToRoute st !! i s) as [r_i|] eqn:Hri,
           (nodeToRoute st !! j s) as [r_j|] eqn:Hrj.
  - rewrite decide_True; [done|]. by apply Hsame.
  - destruct (heap st !! r_i) as [route|] eqn:Hroute; [|done].
    split; [by apply accounted_attach | by apply indexed_attach].
  - destruct (heap st !! r_j) as [route|] eqn:Hroute; [|done].
    split; [by apply accounted_attach | by apply indexed_attach].
  - split; [by apply accounted_pairUp | by apply indexed_pairUp].
Qed.

Lemma concatenationFree_finalState depot nodeList :
  NoDup (id <$> nodeList) ->
  concatenationFree distance depot nodeList ->
  let st := finalState distance depot nodeList in
  refsValid st /\ accounted depot nodeList st /\ indexed st.
Proof.
  intros Hnodup Hfree. unfold finalState, fallbackLoop.
  apply (foldl_preserves
    (fun st => refsValid st /\ accounted depot nodeList st /\ indexed st)).
  - unfold afterSavings.
    apply (savings_prefix_ind
      (fun st => refsValid st /\ accounted depot nodeList st /\ indexed st)).
    + split; [apply refsValid_initial|]. split; [constructor|apply indexed_initial].
    + intros k s Hs Hinv. apply bookkeeping_processSaving; [| |done].
      * apply (calculateSavings_distinct depot nodeList); [done|].
        apply elem_of_sortSavings. by eapply list_elem_of_lookup_2.
      * intros r_i r_j. by apply (Hfree k s).
  - intros st node Hnode (Hvalid & Hacc & Hidx).
    split; [by apply refsValid_fallback|].
    split; [|by apply indexed_fallback].
    apply accounted_fallback; [|done]. by apply findNode_NoDup.
Qed.

(** X7.  In a run on unique identifiers that never enters the branch of
    step 3c, the books of every returned route are right: capacityUsed is
    the depot's capacity minus the load of the route, so the load is within
    the capacity. *)
Theorem concatenationFree_load_within_capacity depot nodeList :
  NoDup (id <$> nodeList) ->
  concatenationFree distance depot nodeList ->
  forall route,
    route ∈ clarkWright distance depot nodeList ->
    capacityUsed route = (capacityOf depot - routeLoad nodeList route)%Z /\
    (routeLoad nodeList route <= capacityOf depot)%Z.
Proof.
  intros Hnodup Hfree route Hroute.
  destruct (concatenationFree_finalState depot nodeList Hnodup Hfree)
    as (_ & Hacc & _).
  assert (0 <= capacityUsed route)%Z as Hcap.
  { apply elem_of_returned in Hroute.
    pose proof (capacityOk_fallbackLoop depot nodeList _
      (capacityOk_savingsLoop depot nodeList
         (rankedSavings distance depot nodeList) _ capacityOk_initial)) as Hok.
    unfold capacityOk in Hok. rewrite Forall_forall in Hok. by apply Hok. }
  apply elem_of_returned in Hroute.
  unfold accounted in Hacc. rewrite Forall_forall in Hacc.
  specialize (Hacc route Hroute). simpl in Hacc. split; [done|lia].
Qed.

Lemma returned_lookup st k route :
  refsValid st -> returned st !! k = Some route ->
  exists r : RouteRef, routes st !! k = Some r /\ heap st !! r = Some route.
Proof.
  intros [Hvalid _]. unfold returned.
  assert (Forall2 (fun (r : RouteRef) route' => heap st !! r = Some route')
            (routes st) (omap (fun r => heap st !! r) (routes st))) as Hall.
  { induction Hvalid as [|r rest Hr _ IH]; [constructor|].
    destruct (lookup_lt_is_Some_2 (heap st) r Hr) as [route' Hroute'].
    csimpl. unfold RouteRef in *. rewrite Hroute'. by constructor. }
  intros Hk. destruct (Forall2_lookup_r _ _ _ _ _ Hall Hk) as (r & ? & ?).
  by exists r.
Qed.

Lemma fallbackLoop_registers depot (nodes_ : list (NodeV IDType)) st node :
  node ∈ nodes_ -> fits depot node = true ->
  is_Some (nodeToRoute (fallbackLoop depot nodes_ st) !! id node).
Proof.
  revert st. unfold fallbackLoop.
  induction nodes_ as [|node' rest IH]; intros st Hin Hfits;
    [by apply elem_of_nil in Hin|].
  apply elem_of_cons in Hin as [<-|Hin]; [|by apply IH]. simpl.
  apply foldl_preserves; [|intros; by apply fallback_keeps_keys].
  unfold fallback. destruct (nodeToRoute st !! id node) eqn:Hnode.
  - rewrite Hnode. by eexists.
  - rewrite Hfits. simpl. rewrite lookup_insert_eq. by eexists.
Qed.

(** X8.  In such a run the returned routes partition the routable nodes: no
    route lists an identifier twice, no identifier is in two returned
    routes, and every node of the list whose own demand fits the capacity is
    in a returned route. *)
Theorem concatenationFree_partition depot nodeList :
  NoDup (id <$> nodeList) ->
  concatenationFree distance depot nodeList ->
  (forall route, route ∈ clarkWright distance depot nodeList -> NoDup (nodes route)) /\
  (forall k1 k2 route1 route2 x,
      clarkWright distance depot nodeList !! k1 = Some route1 ->
      clarkWright distance depot nodeList !! k2 = Some route2 ->
      x ∈ nodes route1 -> x ∈ nodes route2 -> k1 = k2) /\
  (forall node, node ∈ nodeList -> fits depot node = true ->
                exists route, route ∈ clarkWright distance depot nodeList /\
                              id node ∈ nodes route).
Proof.
  intros Hnodup Hfree.
  destruct (concatenationFree_finalState depot nodeList Hnodup Hfree)
    as (Hvalid & _ & HA & HB & HC & HD).
  unfold clarkWright. split; [|split].
  - intros route Hroute%elem_of_returned.
    rewrite Forall_forall in HC. by apply HC.
  - intros k1 k2 route1 route2 x Hk1 Hk2 Hx1 Hx2.
    destruct (returned_lookup _ _ _ Hvalid Hk1) as (r1 & Hr1 & Hroute1).
    destruct (returned_lookup _ _ _ Hvalid Hk2) as (r2 & Hr2 & Hroute2).
    pose proof (HA r1 route1 x Hroute1 Hx1) as Hreg1.
    pose proof (HA r2 route2 x Hroute2 Hx2) as Hreg2.
    assert (r1 = r2) as -> by congruence.
    by eapply NoDup_lookup.
  - intros node Hnode Hfits.
    destruct (fallbackLoop_registers depot nodeList
                (afterSavings distance depot nodeList) node Hnode Hfits) as [r Hr].
    destruct (HB (id node) r Hr) as (Hin & route & Hroute & Hx).
    exists route. split; [|done]. unfold returned.
    apply list_elem_of_omap. by exists r.
Qed.

(** *** The nearest depot *)


Lemma isNearest_or_NaN_unique (dist : Coordinate -> Coordinate -> Number)
    (depotList : list Vehicle) (location : Coordinate)
    k1 k2 depot1 depot2 (d1 d2 : Z) :
  WithNaN.isNearest dist depotList location k1 depot1 d1 ->
  WithNaN.isNearest dist depotList location k2 depot2 d2 ->
  k1 = k2 /\ depot1 = depot2.
Proof.
  intros (Hk1 & Hd1 & Hmin1 & Hfirst1) (Hk2 & Hd2 & Hmin2 & Hfirst2).
  assert (k1 = k2) as ->.
  { destruct (Nat.lt_trichotomy k1 k2) as [Hlt|[?|Hlt]]; [|done|].
    - specialize (Hfirst2 k1 depot1 d1 Hlt Hk1 Hd1).
      specialize (Hmin1 depot2 d2 (list_elem_of_lookup_2 _ _ _ Hk2) Hd2). lia.
    - specialize (Hfirst1 k2 depot2 d2 Hlt Hk2 Hd2).
      specialize (Hmin2 depot1 d1 (list_elem_of_lookup_2 _ _ _ Hk1) Hd1). lia. }
  split; [done|congruence].
Qed.

(** X9.  getNearestDepot returns null exactly when no depot of the list is
    at a distance that is a number: for the empty list, and also for a list
    of depots that are all at a NaN distance from the location.  Otherwise
    it returns the id of the one depot that is nearest to the location among
    those at a number, and first in the list among those at that distance;
    the depots at a NaN distance are passed over. *)
Theorem getNearestDepot_contract (dist : Coordinate -> Coordinate -> Number)
    (depotList : list Vehicle) (location : Coordinate) :
  (WithNaN.getNearestDepot dist depotList location = None <->
   forall (depot : Vehicle) (d : Z),
     depot ∈ depotList -> dist depot location <> Finite d) /\
  (forall key,
      WithNaN.getNearestDepot dist depotList location = Some key <->
      exists k depot d,
        WithNaN.isNearest dist depotList location k depot d /\
        key = vehicle_id depot).
Proof.
  pose proof (getNearestDepot_or_NaN_spec dist depotList location) as Hspec.
  destruct (WithNaN.getNearestDepot dist depotList location) as [key|] eqn:Hnear.
  - destruct Hspec as (k & depot & d & Hk & ->). split.
    + split; [done|]. intros Hnone. destruct Hk as (Hk & Hd & _).
      by destruct (Hnone depot d (list_elem_of_lookup_2 _ _ _ Hk)).
    + intros key. split.
      * intros [= <-]. by exists k, depot, d.
      * intros (k' & depot' & d' & Hk' & ->).
        by destruct (isNearest_or_NaN_unique _ _ _ _ _ _ _ _ _ Hk Hk') as [_ ->].
  - split; [done|]. intros key. split; [done|].
    intros (k & depot & d & (Hk & Hd & _) & _).
    by destruct (Hspec depot d (list_elem_of_lookup_2 _ _ _ Hk)).
Qed.



(** *** The cluster and route mappings *)

Lemma addVendor_lookup (depotList : list Vehicle) (orderList : list (NodeV IDType))
    (acc : gmap Z (list (VendorOrderCluster IDType))) vendorNode key :
  addVendor distance depotList orderList acc vendorNode !! key =
  if decide (getNearestDepot distance depotList vendorNode = Some key)
  then Some (default [] (acc !! key) ++ [clusterOf orderList vendorNode])
  else acc !! key.
Proof.
  rewrite addVendor_eq.
  destruct (getNearestDepot distance depotList vendorNode) as [nearest|].
  - case_decide as Heq.
    + injection Heq as ->. by rewrite lookup_insert_eq.
    + rewrite lookup_insert_ne; [done|]. by intros ->.
  - by rewrite decide_False.
Qed.

Lemma formDepotClusters_fold (depotList : list Vehicle)
    (orderList vendors : list (NodeV IDType))
    (acc : gmap Z (list (VendorOrderCluster IDType))) key :
  foldl (addVendor distance depotList orderList) acc vendors !! key =
  let new := clusterOf orderList <$>
             filter (fun vendorNode =>
                       getNearestDepot distance depotList vendorNode = Some key)
                    vendors in
  if decide (new = []) then acc !! key else Some (default [] (acc !! key) ++ new).
Proof.
  revert acc. induction vendors as [|v vendors IH]; intros acc; [done|].
  simpl. rewrite IH, addVendor_lookup, filter_cons.
  destruct (decide (getNearestDepot distance depotList v = Some key)) as [Hv|Hv];
    [|done].
  rewrite fmap_cons. rewrite (decide_False (P := _ :: _ = [])) by done.
  cbv zeta. case_decide as Hnew.
  - by rewrite Hnew.
  - simpl. by rewrite <- app_assoc.
Qed.

Lemma formDepotClusters_served (depotList : list Vehicle)
    (vendorList orderList : list (NodeV IDType)) key :
  formDepotClusters distance depotList vendorList orderList !! key =
  let served := filter (fun vendorNode =>
                          getNearestDepot distance depotList vendorNode = Some key)
                       vendorList in
  if decide (served = []) then None
  else Some ((fun vendorNode =>
                {| vendor := vendorNode;
                   orders := List.filter
                     (fun order => bool_decide (vendorId order = Some (id vendorNode)))
                     orderList |}) <$> served).
Proof.
  rewrite formDepotClusters_eq, formDepotClusters_fold. cbv zeta.
  rewrite lookup_empty.
  by destruct (filter _ vendorList) as [|v served].
Qed.

(** X11.  Under each depot id, formDepotClusters stores exactly the clusters
    of the vendors whose nearest depot has that id, one per vendor, in the
    order of the vendor list; an id that is nearest to no vendor is not a key
    of the mapping. *)
Theorem formDepotClusters_lookup (depotList : list Vehicle)
    (vendorList orderList : list (NodeV IDType)) key :
  formDepotClusters distance depotList vendorList orderList !! key =
  let served := filter (fun vendorNode =>
                          getNearestDepot distance depotList vendorNode = Some key)
                       vendorList in
  if decide (served = []) then None
  else Some ((fun vendorNode =>
                {| vendor := vendorNode;
                   orders := List.filter
                     (fun order => bool_decide (vendorId order = Some (id vendorNode)))
                     orderList |}) <$> served).
Proof. apply formDepotClusters_served. Qed.

Lemma routeDepot_lookup (depotClusters : gmap Z (list (VendorOrderCluster IDType)))
    (acc : gmap Z (list (Route IDType))) depot key :
  routeDepot distance depotClusters acc depot !! key =
  match depotClusters !! key with
  | Some clusters =>
      if decide (vehicle_id depot = key)
      then Some (concat (map (routeCluster distance depot) clusters))
      else acc !! key
  | None => if decide (vehicle_id depot = key) then acc !! key else acc !! key
  end.
Proof.
  unfold routeDepot. destruct (decide (vehicle_id depot = key)) as [<-|Hne].
  - destruct (depotClusters !! vehicle_id depot); [|done].
    by rewrite lookup_insert_eq.
  - destruct (depotClusters !! vehicle_id depot);
      [rewrite lookup_insert_ne by done|]; by destruct (depotClusters !! key).
Qed.

Lemma routeWithinClusters_closed_form (depotList : list Vehicle)
    (depotClusters : gmap Z (list (VendorOrderCluster IDType))) key :
  routeWithinClusters distance depotList depotClusters !! key =
  match depotClusters !! key,
        last (filter (fun depot => vehicle_id depot = key) depotList) with
  | Some clusters, Some depot =>
      Some (concat (map (fun cluster =>
              clarkWright distance depot (vendor cluster :: orders cluster))
              clusters))
  | _, _ => None
  end.
Proof.
  unfold routeWithinClusters.
  induction depotList as [|depot depotList IH] using rev_ind.
  - simpl. rewrite lookup_empty. by destruct (depotClusters !! key).
  - rewrite foldl_snoc, routeDepot_lookup, IH, filter_app, filter_cons, filter_nil.
    destruct (depotClusters !! key) as [clusters|];
      destruct (decide (vehicle_id depot = key)) as [Heq|Hne];
      rewrite ?last_snoc, ?app_nil_r; done.
Qed.

(** X12.  routeWithinClusters has an entry exactly for the ids that are both
    a key of the cluster mapping and the id of a depot of the list: a depot
    without clusters gets no entry (not an empty list), and clusters stored
    under an id that no depot has are ignored.  The entry holds the routes of
    the clusters, cluster after cluster, computed for the last depot of the
    list with that id. *)
Theorem routeWithinClusters_entry (depotList : list Vehicle)
    (depotClusters : gmap Z (list (VendorOrderCluster IDType))) key :
  routeWithinClusters distance depotList depotClusters !! key =
  match depotClusters !! key,
        last (filter (fun depot => vehicle_id depot = key) depotList) with
  | Some clusters, Some depot =>
      Some (concat (map (fun cluster =>
              clarkWright distance depot (vendor cluster :: orders cluster))
              clusters))
  | _, _ => None
  end.
Proof. apply routeWithinClusters_closed_form. Qed.

(** *** The multi-depot router *)

Lemma nearest_is_listed (depotList : list Vehicle) (location : Coordinate) key :
  getNearestDepot distance depotList location = Some key ->
  is_Some (last (filter (fun depot => vehicle_id depot = key) depotList)).
Proof.
  intros Hnear. apply last_is_Some.
  pose proof (getNearestDepot_spec distance depotList location) as Hspec.
  rewrite Hnear in Hspec. destruct Hspec as (k & depot & (Hk & _) & ->).
  intros Hnil. apply (filter_nil_not_elem_of _ _ depot Hnil); [done|].
  by eapply list_elem_of_lookup_2.
Qed.

(** X13.  multiDepotVehicleRouter has an entry exactly for the depot ids
    that are the nearest depot of some vendor.  So with no depot, or with no
    vendor, the result is empty whatever the orders are: an order is only
    ever routed through a vendor. *)
Theorem multiDepotVehicleRouter_keys (vehicleList : list Vehicle)
    (vendorList orderList : list (NodeV IDType)) :
  (forall key,
      is_Some (multiDepotVehicleRouter distance vehicleList vendorList orderList
                 !! key) <->
      exists vendorNode,
        vendorNode ∈ vendorList /\
        getNearestDepot distance vehicleList vendorNode = Some key) /\
  (vehicleList = [] ->
   multiDepotVehicleRouter distance vehicleList vendorList orderList = ∅) /\
  (vendorList = [] ->
   multiDepotVehicleRouter distance vehicleList vendorList orderList = ∅).
Proof.
  assert (forall key,
    is_Some (multiDepotVehicleRouter distance vehicleList vendorList orderList
               !! key) <->
    exists vendorNode,
      vendorNode ∈ vendorList /\
      getNearestDepot distance vehicleList vendorNode = Some key) as Hkeys.
  { intros key. unfold multiDepotVehicleRouter.
    rewrite routeWithinClusters_closed_form, formDepotClusters_served. cbv zeta.
    destruct (filter _ vendorList) as [|v served] eqn:Hserved; simpl.
    - split; [by intros [? ?]|]. intros (v & Hv & Hnear).
      exfalso. apply (filter_nil_not_elem_of _ _ v Hserved); done.
    - assert (v ∈ filter (fun vendorNode =>
                getNearestDepot distance vehicleList vendorNode = Some key)
                vendorList) as [Hnear Hv]%list_elem_of_filter
        by (rewrite Hserved; left).
      destruct (nearest_is_listed _ _ _ Hnear) as [depot ->].
      split; [|by eexists]. intros _. by exists v. }
  split; [exact Hkeys|]. split.
  - intros ->. apply map_empty. intros key. apply eq_None_not_Some.
    rewrite Hkeys. by intros (v & _ & Hnear).
  - intros ->. apply map_empty. intros key. apply eq_None_not_Some.
    rewrite Hkeys. by intros (v & Hv%elem_of_nil & _).
Qed.

Lemma returned_capacityUsed_nonneg depot nodeList route :
  route ∈ clarkWright distance depot nodeList -> (0 <= capacityUsed route)%Z.
Proof.
  intros Hroute%elem_of_returned.
  pose proof (capacityOk_fallbackLoop depot nodeList _
    (capacityOk_savingsLoop depot nodeList
       (rankedSavings distance depot nodeList) _ capacityOk_initial)) as Hok.
  unfold capacityOk in Hok. rewrite Forall_forall in Hok. by apply Hok.
Qed.

(** X14.  Every route in the result of multiDepotVehicleRouter is stored
    under the id of a depot of the list whose capacity it carries, has
    capacityUsed >= 0 and at least one node, and lists only vendors of the
    vendor list and orders of the order list whose vendorId is the id of a
    vendor of the list: an order without vendorId, or with the id of no
    vendor, is in no route. *)
Theorem multiDepotVehicleRouter_routes (vehicleList : list Vehicle)
    (vendorList orderList : list (NodeV IDType)) key rs route :
  multiDepotVehicleRouter distance vehicleList vendorList orderList !! key = Some rs ->
  route ∈ rs ->
  (exists depot, depot ∈ vehicleList /\ vehicle_id depot = key /\
                 vehicleCapacity route = capacityOf depot) /\
  (0 <= capacityUsed route)%Z /\
  nodes route <> [] /\
  forall x, x ∈ nodes route ->
    (exists vendorNode, vendorNode ∈ vendorList /\ id vendorNode = x) \/
    (exists order vendorNode,
        order ∈ orderList /\ vendorNode ∈ vendorList /\ id order = x /\
        vendorId order = Some (id vendorNode)).
Proof.
  unfold multiDepotVehicleRouter.
  intros (depot & clusters & Hdepot & Hid & Hclusters & ->)%routeWithinClusters_lookup
    Hroute.
  apply list_elem_of_In, in_concat in Hroute as (routes_ & Hin & Hroute).
  apply in_map_iff in Hin as (cluster & <- & Hcluster).
  apply list_elem_of_In in Hroute, Hcluster.
  rewrite formDepotClusters_eq in Hclusters.
  destruct (formDepotClusters_only distance _ _ _ _ _ _ _ Hclusters Hcluster)
    as [(cs0 & Hcs0 & _)|(v & Hv & -> & Hnear)];
    [by rewrite lookup_empty in Hcs0|].
  unfold routeCluster in Hroute. simpl in Hroute.
  destruct (clarkWright_routes_shape depot _ route Hroute) as (Hnodes & Hcap & Hids).
  split; [by exists depot|]. split; [by eapply returned_capacityUsed_nonneg|].
  split; [done|]. intros x Hx.
  destruct (Hids x Hx) as (node & [->|Hnode]%elem_of_cons & Hnodeid).
  - left. by exists v.
  - right. apply list_elem_of_In, filter_In in Hnode as [Hnode Hassoc].
    apply bool_decide_eq_true in Hassoc. apply list_elem_of_In in Hnode.
    by exists node, v.
Qed.

(** *** Two kinds of returned routes *)

Lemma pairsOrMore_processSaving depot nodeList st s :
  pairsOrMore st -> pairsOrMore (processSaving depot nodeList st s).
Proof.
  intros Hst. unfold pairsOrMore in *.
  assert (forall (r : RouteRef) route, heap st !! r = Some route ->
            2 <= length (nodes route)) as Hat.
  { intros r route Hr. by apply (Forall_lookup_1 _ _ _ _ Hst Hr). }
  unfold processSaving, pairUp, attach, concatenate.
  repeat case_match; try done; simpl;
    try (apply Forall_app; split; [done|]; repeat constructor; simpl; lia);
    (apply Forall_insert; [done|]; simpl;
     repeat match goal with
            | Hr : heap st !! _ = Some _ |- _ => apply Hat in Hr
            end;
     rewrite ?length_app; simpl; lia).
Qed.

(** X15.  clarkWright returns two kinds of routes and no other: routes of
    two or more nodes, built by the savings loop from identifiers of ORDER
    nodes, and one-node routes, each the fallback route of a node of the list
    whose own demand fits. *)
Theorem returned_route_kinds depot nodeList route :
  route ∈ clarkWright distance depot nodeList ->
  (2 <= length (nodes route) /\
   forall x, x ∈ nodes route -> isOrderId nodeList x) \/
  (exists node,
      node ∈ nodeList /\ fits depot node = true /\
      route = {| nodes := [id node];
                 capacityUsed := match type node with
                                 | ORDER => (capacityOf depot - demand node)%Z
                                 | VENDOR => (capacityOf depot + demand node)%Z
                                 end;
                 vehicleCapacity := capacityOf depot |}).
Proof.
  destruct (afterSavings_wf distance depot nodeList) as (Hvalid & Hreg & Hkeys).
  unfold clarkWright, finalState.
  intros [Hold|(before & node & after & -> & _ & Hfits & ->)]%returned_fallbackLoop;
    [|right|done].
  - left. apply elem_of_returned in Hold.
    assert (pairsOrMore (afterSavings distance depot nodeList)) as Hpairs.
    { unfold afterSavings, savingsLoop.
      apply foldl_preserves; [constructor|intros; by apply pairsOrMore_processSaving]. }
    unfold pairsOrMore in Hpairs. rewrite Forall_forall in Hpairs.
    split; [by apply Hpairs|]. intros x Hx.
    unfold registered in Hreg. rewrite Forall_forall in Hreg.
    specialize (Hreg route Hold). rewrite Forall_forall in Hreg.
    destruct (Hreg x Hx) as [r Hr].
    exact (map_Forall_lookup_1 _ _ _ _ Hkeys Hr).
  - exists node. split; [|done]. apply elem_of_app. right. left.
Qed.

(** *** Orders that never fit together *)

Lemma savingsLoop_all_rejected depot nodeList (savingsList : list (Saving IDType)) :
  (forall s, s ∈ savingsList ->
     exists node_i node_j,
       findNode nodeList (i s) = Some node_i /\
       findNode nodeList (j s) = Some node_j /\
       (capacityOf depot - demandEffect node_i - demandEffect node_j < 0)%Z) ->
  savingsLoop depot nodeList savingsList initialState = initialState.
Proof.
  intros Hall. unfold savingsLoop.
  apply (foldl_preserves (fun st => st = initialState)); [done|].
  intros st s Hs ->. destruct (Hall s Hs) as (node_i & node_j & Hi & Hj & Hneg).
  unfold processSaving. rewrite Hi, Hj. simpl. rewrite !lookup_empty.
  unfold pairUp.
  by destruct (Z.leb_spec 0
    (capacityOf depot - demandEffect node_i - demandEffect node_j)); [lia|].
Qed.

(** X16.  When no two ORDER nodes of the list fit one vehicle together
    (the sum of their demands exceeds the capacity) and identifiers are
    unique, no saving is taken up: clarkWright returns the one-node routes of
    the nodes that fit, in the order of the list. *)
Theorem no_pair_fits_all_fallback depot nodeList :
  NoDup (id <$> nodeList) ->
  (forall node_i node_j,
      node_i ∈ nodeList -> node_j ∈ nodeList -> node_i <> node_j ->
      type node_i = ORDER -> type node_j = ORDER ->
      (capacityOf depot < demand node_i + demand node_j)%Z) ->
  clarkWright distance depot nodeList =
  fallbackRoute depot <$> filter (fun node => fits depot node = true) nodeList.
Proof.
  intros Hnodup Hheavy. unfold clarkWright, finalState, afterSavings.
  rewrite savingsLoop_all_rejected.
  - rewrite fallbackLoop_fresh; [done|apply refsValid_initial|done|].
    intros node _. apply lookup_empty.
  - intros s Hs. unfold rankedSavings in Hs.
    apply (proj1 (elem_of_sortSavings _ _)) in Hs.
    pose proof (calculateSavings_distinct depot nodeList s Hnodup Hs) as Hne.
    apply elem_of_calculateSavings in Hs
      as (node_i & node_j & Hi & Hj & Hoi & Hoj & ->).
    exists node_i, node_j. simpl in *.
    split; [by apply findNode_NoDup|]. split; [by apply findNode_NoDup|].
    unfold demandEffect. rewrite Hoi, Hoj.
    assert (node_i <> node_j) as Hnodes by (intros ->; done).
    specialize (Hheavy node_i node_j Hi Hj Hnodes Hoi Hoj). lia.
Qed.

End Further.

(** *** The further properties at concrete inputs *)

Lemma saving_nodes_found_on_colocatedNodes :
  let s := {| i := "A"; j := "D"; saving := 0 |} in
  s ∈ rankedSavings arcDistance depot0 colocatedNodes /\
  exists node_i node_j,
    findNode colocatedNodes (i s) = Some node_i /\
    findNode colocatedNodes (j s) = Some node_j /\
    node_i ∈ colocatedNodes /\ node_j ∈ colocatedNodes /\
    isOrderId colocatedNodes (id node_i) /\ isOrderId colocatedNodes (id node_j).
Proof.
  intros s.
  assert (Hin : s ∈ rankedSavings arcDistance depot0 colocatedNodes).
  { vm_compute. right. right. left. }
  split; [exact Hin|].
  exact (saving_nodes_always_found arcDistance depot0 colocatedNodes s Hin).
Defined.

Lemma smallCluster_all_fallback :
  countOrders smallCluster <= 1 /\
  NoDup (id <$> smallCluster) /\
  clarkWright arcDistance depot0 smallCluster =
    [{| nodes := ["V"]; capacityUsed := 8; vehicleCapacity := 10 |};
     {| nodes := ["A"]; capacityUsed := 7; vehicleCapacity := 10 |}].
Proof.
  assert (Hfew : countOrders smallCluster <= 1) by (vm_compute; lia).
  assert (Hnodup : NoDup (id <$> smallCluster)).
  { refine (bool_decide_unpack (NoDup (id <$> smallCluster)) _).
    vm_compute. exact I. }
  split; [exact Hfew|]. split; [exact Hnodup|].
  exact (few_orders_all_fallback arcDistance depot0 smallCluster Hfew Hnodup).
Defined.

Lemma shape_on_colocatedNodes :
  let route := {| nodes := ["C"; "A"; "B"; "D"; "E"];
                  capacityUsed := 5; vehicleCapacity := 10 |} in
  route ∈ clarkWright arcDistance depot0 colocatedNodes /\
  nodes route <> [] /\
  vehicleCapacity route = capacityOf depot0 /\
  forall x, x ∈ nodes route -> exists node, node ∈ colocatedNodes /\ id node = x.
Proof.
  intros route.
  assert (Hin : route ∈ clarkWright arcDistance depot0 colocatedNodes).
  { vm_compute. left. }
  split; [exact Hin|].
  exact (returned_routes_shape arcDistance depot0 colocatedNodes route Hin).
Defined.

Lemma colocatedNodes_consume :
  forall node, node ∈ colocatedNodes -> (0 <= demandEffect node)%Z.
Proof.
  intros node Hnode. unfold colocatedNodes in Hnode.
  repeat (apply elem_of_cons in Hnode as [->|Hnode]; [vm_compute; discriminate|]).
  by apply elem_of_nil in Hnode.
Qed.

Lemma capacity_bound_on_colocatedNodes :
  (forall node, node ∈ colocatedNodes -> (0 <= demandEffect node)%Z) /\
  (forall route, route ∈ clarkWright arcDistance depot0 colocatedNodes ->
                 (capacityUsed route <= vehicleCapacity route)%Z).
Proof.
  split; [exact colocatedNodes_consume|].
  exact (capacityUsed_at_most_vehicleCapacity arcDistance depot0 colocatedNodes
           colocatedNodes_consume).
Defined.

Lemma colocatedNodes_unique : NoDup (id <$> colocatedNodes).
Proof.
  refine (bool_decide_unpack (NoDup (id <$> colocatedNodes)) _).
  vm_compute. exact I.
Qed.

Lemma colocatedNodes_concatenationFree :
  concatenationFree arcDistance depot0 colocatedNodes.
Proof.
  intros k s r_i r_j Hk Hi Hj.
  do 10 (destruct k as [|k];
         [vm_compute in Hk; injection Hk as <-; vm_compute in Hi, Hj; congruence|]).
  vm_compute in Hk. discriminate.
Qed.

Lemma books_on_colocatedNodes :
  NoDup (id <$> colocatedNodes) /\
  concatenationFree arcDistance depot0 colocatedNodes /\
  (forall route,
      route ∈ clarkWright arcDistance depot0 colocatedNodes ->
      capacityUsed route = (capacityOf depot0 - routeLoad colocatedNodes route)%Z /\
      (routeLoad colocatedNodes route <= capacityOf depot0)%Z).
Proof.
  split; [exact colocatedNodes_unique|].
  split; [exact colocatedNodes_concatenationFree|].
  exact (concatenationFree_load_within_capacity arcDistance depot0 colocatedNodes
           colocatedNodes_unique colocatedNodes_concatenationFree).
Defined.

Lemma partition_on_colocatedNodes :
  NoDup (id <$> colocatedNodes) /\
  concatenationFree arcDistance depot0 colocatedNodes /\
  (forall node, node ∈ colocatedNodes -> fits depot0 node = true ->
                exists route, route ∈ clarkWright arcDistance depot0 colocatedNodes /\
                              id node ∈ nodes route).
Proof.
  split; [exact colocatedNodes_unique|].
  split; [exact colocatedNodes_concatenationFree|].
  exact (proj2 (proj2 (concatenationFree_partition arcDistance depot0 colocatedNodes
           colocatedNodes_unique colocatedNodes_concatenationFree))).
Defined.


Lemma routes_of_two_depots :
  let vendorList := [vendorAt "V" 1 (-2)] in
  let rs := [{| nodes := ["V"]; capacityUsed := 8; vehicleCapacity := 10 |};
             {| nodes := ["O1"]; capacityUsed := 8; vehicleCapacity := 10 |}] in
  let route := {| nodes := ["O1"]; capacityUsed := 8; vehicleCapacity := 10 |} in
  multiDepotVehicleRouter arcDistance twoDepots vendorList sampleOrders !! 1%Z
    = Some rs /\
  route ∈ rs /\
  (exists depot, depot ∈ twoDepots /\ vehicle_id depot = 1%Z /\
                 vehicleCapacity route = capacityOf depot) /\
  (0 <= capacityUsed route)%Z /\
  nodes route <> [] /\
  forall x, x ∈ nodes route ->
    (exists vendorNode, vendorNode ∈ vendorList /\ id vendorNode = x) \/
    (exists order vendorNode,
        order ∈ sampleOrders /\ vendorNode ∈ vendorList /\ id order = x /\
        vendorId order = Some (id vendorNode)).
Proof.
  intros vendorList rs route.
  assert (Hlookup : multiDepotVehicleRouter arcDistance twoDepots vendorList
                      sampleOrders !! 1%Z = Some rs) by (vm_compute; reflexivity).
  assert (Hin : route ∈ rs) by (right; left).
  split; [exact Hlookup|]. split; [exact Hin|].
  exact (multiDepotVehicleRouter_routes arcDistance twoDepots vendorList
           sampleOrders 1%Z rs route Hlookup Hin).
Defined.

Lemma route_kinds_on_mixedNodes :
  let route := {| nodes := ["V"]; capacityUsed := 8; vehicleCapacity := 10 |} in
  route ∈ clarkWright arcDistance depot0 mixedNodes /\
  ((2 <= length (nodes route) /\
    forall x, x ∈ nodes route -> isOrderId mixedNodes x) \/
   (exists node,
       node ∈ mixedNodes /\ fits depot0 node = true /\
       route = {| nodes := [id node];
                  capacityUsed := match type node with
                                  | ORDER => (capacityOf depot0 - demand node)%Z
                                  | VENDOR => (capacityOf depot0 + demand node)%Z
                                  end;
                  vehicleCapacity := capacityOf depot0 |})).
Proof.
  intros route.
  assert (Hin : route ∈ clarkWright arcDistance depot0 mixedNodes).
  { vm_compute. left. }
  split; [exact Hin|].
  exact (returned_route_kinds arcDistance depot0 mixedNodes route Hin).
Defined.

Lemma heavyNodes_never_pair :
  forall node_i node_j : NodeV string,
    node_i ∈ heavyNodes -> node_j ∈ heavyNodes -> node_i <> node_j ->
    type node_i = ORDER -> type node_j = ORDER ->
    (capacityOf depot0 < demand node_i + demand node_j)%Z.
Proof.
  intros node_i node_j Hi Hj Hne _ _. unfold heavyNodes in Hi, Hj.
  repeat (apply elem_of_cons in Hi as [->|Hi]);
    try (by apply elem_of_nil in Hi);
    repeat (apply elem_of_cons in Hj as [->|Hj]);
    try (by apply elem_of_nil in Hj);
    try done; vm_compute; reflexivity.
Qed.

Lemma heavyNodes_all_fallback :
  NoDup (id <$> heavyNodes) /\
  clarkWright arcDistance depot0 heavyNodes =
    [{| nodes := ["A"]; capacityUsed := 4; vehicleCapacity := 10 |};
     {| nodes := ["B"]; capacityUsed := 3; vehicleCapacity := 10 |}].
Proof.
  assert (Hnodup : NoDup (id <$> heavyNodes)).
  { refine (bool_decide_unpack (NoDup (id <$> heavyNodes)) _).
    vm_compute. exact I. }
  split; [exact Hnodup|].
  exact (no_pair_fits_all_fallback arcDistance depot0 heavyNodes Hnodup
           heavyNodes_never_pair).
Defined.
